(** * Rank-order reassembly in the InteractiveMPI notebook

    The notebook gathers one value per engine, in engine-id order, and
    puts the values into MPI-rank order with two statements:

<<
    ranks = view['rank']
    rank_indices = np.argsort(ranks)

    def mpi_order(seq):
        return [seq[x] for x in rank_indices]
>>

    This file embeds those statements and proves what they do.  Integers
    are [Z], Python lists are [list], and a statement that can raise is a
    computation in a small error monad.

    It then embeds the rest of the notebook: the integer side of the
    engines' [simulation] loop (mesh sizes, the [stop] flag, the globals
    it publishes), and [plot_current_results], [simulation_alive] and
    [monitor_simulation] as functions of what the engines answer, with
    the events the user sees as their trace. *)

From stdpp Require Import base decidable option list list_numbers sorting strings pretty.
From Stdlib Require Import ZArith Lia.

Local Open Scope Z_scope.

(** ** Exceptions and the error monad *)

(** [IndexError] is the only exception the two statements can raise (a
    list subscript out of range).  [LengthMismatchError] and
    [InvalidInputError] are the names used by the written specification;
    no statement of the notebook raises them, they are here so that a
    sentence about them can be stated at all. *)
Inductive exception : Set :=
  | IndexError
  | LengthMismatchError
  | InvalidInputError.

Inductive result (A : Type) : Type :=
  | Return (a : A)
  | Raise (e : exception).
Arguments Return {A} a.
Arguments Raise {A} e.

(** [result] is a monad in stdpp's sense, which gives the [x ← m; k]
    notation. *)
#[global] Instance result_ret : MRet result := λ A a, Return a.
#[global] Instance result_bind : MBind result := λ A B k m,
  match m with
  | Return a => k a
  | Raise e => Raise e
  end.

(** ** Python list subscript *)

(** [seq[x]] for a list [seq] and an integer [x]: positions count from 0,
    a negative [x] counts from the end, anything else is an [IndexError]. *)
Definition getitem {A} (seq : list A) (x : Z) : result A :=
  let n := Z.of_nat (length seq) in
  let i := if decide (x < 0) then x + n else x in
  if decide (0 ≤ i < n) then
    match seq !! Z.to_nat i with
    | Some v => Return v
    | None => Raise IndexError
    end
  else Raise IndexError.

(** ** [np.argsort]

    NumPy's [argsort] of a one-dimensional array is an indirect sort: it
    permutes the array of positions [0, 1, ..., n-1] so that the keys
    read through it are ascending.  It is modelled here by an insertion
    sort on the exact integer keys.  Two things NumPy does are not in the
    model, and no statement below relies on them.  First, NumPy sorts the
    fixed-width array it makes of the list: keys outside the 64-bit
    signed range are rounded on the way and may come out of order, so
    the statements about the order of the outcome take keys in that
    range ([int64]).  Second, NumPy's default sort may order a run of
    equal keys differently from the insertion sort, so no statement
    depends on the order within such a run.  When the keys are pairwise
    distinct and in range the answer does not depend on the sorting
    routine at all, see [argsort_unique]. *)

(** An entry is a key together with the position it came from. *)
Definition entry : Type := Z * Z.

Fixpoint insert_entry (e : entry) (l : list entry) : list entry :=
  match l with
  | [] => [e]
  | e' :: l' =>
      if decide (e.1 < e'.1) then e :: e' :: l'
      else e' :: insert_entry e l'
  end.

Definition enumerate (a : list Z) : list entry :=
  zip a (seqZ 0 (Z.of_nat (length a))).

Definition sort_entries (l : list entry) : list entry :=
  foldl (λ acc e, insert_entry e acc) [] l.

Definition argsort (a : list Z) : list Z :=
  (sort_entries (enumerate a)).*2.

(** The keys in the order the sort leaves them, that is, [a] read through
    [argsort a]. *)
Definition sorted_keys (a : list Z) : list Z :=
  (sort_entries (enumerate a)).*1.

(** Entries are compared by key only. *)
Definition key_le : relation entry := λ e1 e2, e1.1 ≤ e2.1.

(** The entry of position [x] of [a]. *)
Definition entry_at (a : list Z) (x : Z) : entry :=
  (default 0 (a !! Z.to_nat x), x).

(** ** The notebook's two definitions *)

(** [rank_indices = np.argsort(ranks)], as a function of the gathered
    [ranks]. *)
Definition rank_indices (ranks : list Z) : result (list Z) :=
  Return (argsort ranks).

(** The comprehension [[seq[x] for x in rank_indices]]: the subscripts are
    evaluated left to right and the first one that raises ends it. *)
Fixpoint comprehension {A} (seq : list A) (xs : list Z) : result (list A) :=
  match xs with
  | [] => mret []
  | x :: xs' =>
      v ← getitem seq x;
      vs ← comprehension seq xs';
      mret (v :: vs)
  end.

(** [mpi_order(seq)]; the global [rank_indices] it reads is the first
    argument. *)
Definition mpi_order {A} (rank_indices : list Z) (seq : list A) : result (list A) :=
  comprehension seq rank_indices.

(** The two statements in sequence: build the index from [ranks], then
    reorder [seq] with it. *)
Definition reassemble {A} (ranks : list Z) (seq : list A) : result (list A) :=
  idx ← rank_indices ranks;
  mpi_order idx seq.

(** ** Vocabulary of the statements *)

(** [ranks] holds each of [0, ..., N-1] exactly once, [N] its length. *)
Definition rank_permutation (ranks : list Z) : Prop :=
  ranks ≡ₚ seqZ 0 (Z.of_nat (length ranks)).

(** [x] is a position of [seq]: [0 ≤ x < |seq|]. *)
Definition position {A} (seq : list A) (x : Z) : Prop :=
  0 ≤ x < Z.of_nat (length seq).

(** [x] is accepted by the subscript [seq[x]], counting from either end. *)
Definition valid_index {A} (seq : list A) (x : Z) : Prop :=
  - Z.of_nat (length seq) ≤ x < Z.of_nat (length seq).

(** [k] fits NumPy's 64-bit signed integer. *)
Definition int64 (k : Z) : Prop := - 2 ^ 63 ≤ k < 2 ^ 63.

#[global] Instance int64_dec k : Decision (int64 k).
Proof. unfold int64. apply _. Defined.
#[global] Instance rank_permutation_dec ranks : Decision (rank_permutation ranks).
Proof. unfold rank_permutation. apply _. Defined.
#[global] Instance position_dec {A} (seq : list A) x : Decision (position seq x).
Proof. unfold position. apply _. Defined.
#[global] Instance valid_index_dec {A} (seq : list A) x : Decision (valid_index seq x).
Proof. unfold valid_index. apply _. Defined.

(** ** The engines' simulation

<<
    def simulation():
        global j, Z, nx, nyt
        freqs = np.linspace(0.6, 1, nsteps)
        for j in range(nsteps):
            nx, ny = 2+j/4, 2+j/2/mpi.size
            nyt = mpi.size*ny
            Xax = np.linspace(xmin, xmax, nx)
            Yax = np.linspace(ymin+rank*dy, ymin+(rank+1)*dy, ny, endpoint=rank==mpi.size)
            X, Y = np.meshgrid(Xax, Yax)
            f = freqs[j]
            Z = np.cos(f*(X**2 + Y**2))
            time.sleep(delay)
            if stop:
                break
>>

    The notebook is Python 2 ([print] is a statement), so [/] between
    integers is floor division, which is [Z.div] for a positive divisor.
    [mpi.size] is the size of the MPI communicator and is at least 1. *)

Definition nx (j : Z) : Z := 2 + j / 4.
Definition ny (size j : Z) : Z := 2 + j / 2 / size.
Definition nyt (size j : Z) : Z := size * ny size j.

(** A two-dimensional array: its number of columns and its rows.  (The
    number of columns is part of a NumPy shape even when there are no
    rows.) *)
Record ndarray (A : Type) : Type := Ndarray {
  ncols : nat;
  rows : list (list A)
}.
Arguments Ndarray {A}.
Arguments ncols {A}.
Arguments rows {A}.

Definition nrows {A} (a : ndarray A) : nat := length (rows a).

(** Every row has [ncols] entries. *)
Definition rectangular {A} (a : ndarray A) : Prop :=
  Forall (λ r, length r = ncols a) (rows a).

(** [Z] at step [j].  [np.linspace(_, _, num)] has [num] points and
    [np.meshgrid(Xax, Yax)] returns arrays with one row per point of [Yax]
    and one column per point of [Xax], so [Z] has [ny] rows of [nx]
    entries.  The entries are floating-point numbers; [sample j r c]
    stands for the one computed at step [j] in row [r] and column [c] on
    this engine. *)
Definition mesh {A} (sample : Z → nat → nat → A) (size j : Z) : ndarray A :=
  Ndarray (Z.to_nat (nx j))
    ((λ r, (λ c, sample j r c) <$> seq 0 (Z.to_nat (nx j)))
       <$> seq 0 (Z.to_nat (ny size j))).

(** The module globals that [simulation] publishes. *)
Record globals (A : Type) : Type := Globals {
  g_j : Z;
  g_Z : ndarray A;
  g_nx : Z;
  g_nyt : Z
}.
Arguments Globals {A}.
Arguments g_j {A}.
Arguments g_Z {A}.
Arguments g_nx {A}.
Arguments g_nyt {A}.

(** What one pass through the loop body leaves in the globals. *)
Definition published {A} (sample : Z → nat → nat → A) (size j : Z) : globals A :=
  Globals j (mesh sample size j) (nx j) (nyt size j).

(** The [for] loop over the remaining values of [range(nsteps)].  The
    globals are [None] while they are unbound.  [stop j] is the value of
    the global [stop] when pass [j] tests it (an engine's [stop] is set
    from the notebook by [view['stop'] = True] while the loop runs). *)
Fixpoint simulation_loop {A} (sample : Z → nat → nat → A) (size : Z)
    (stop : Z → bool) (js : list Z) (g : option (globals A)) : option (globals A) :=
  match js with
  | [] => g
  | j :: js' =>
      let g' := Some (published sample size j) in
      if stop j then g' else simulation_loop sample size stop js' g'
  end.

(** [simulation()], started with the globals [g].  ([range(nsteps)] is
    empty for [nsteps ≤ 0]; whether [np.linspace] accepts a negative
    [nsteps] depends on the NumPy version, and nothing is published in
    either case.) *)
Definition simulation {A} (sample : Z → nat → nat → A) (size nsteps : Z)
    (stop : Z → bool) (g : option (globals A)) : option (globals A) :=
  simulation_loop sample size stop (seqZ 0 nsteps) g.

(** ** The notebook's monitoring functions *)

(** What the monitoring functions can see raised: the exceptions of
    [mpi_order], NumPy's [ValueError], the user's [KeyboardInterrupt],
    and the two exceptions of a call to the engines, [TimeoutError] for a
    call that does not answer in time and [RemoteError] for one that
    failed on an engine. *)
Inductive raised : Set :=
  | Subscript (e : exception)
  | ValueError
  | KeyboardInterrupt
  | TimeoutError
  | RemoteError.

Inductive outcome (A : Type) : Type :=
  | Done (a : A)
  | Raised (e : raised).
Arguments Done {A} a.
Arguments Raised {A} e.

#[global] Instance outcome_ret : MRet outcome := λ A a, Done a.
#[global] Instance outcome_bind : MBind outcome := λ A B k m,
  match m with
  | Done a => k a
  | Raised e => Raised e
  end.

(** An exception of [mpi_order] as the monitoring functions see it. *)
Definition lift {A} (r : result A) : outcome A :=
  match r with
  | Return a => Done a
  | Raise e => Raised (Subscript e)
  end.

(** [np.concatenate(arrays)] for a list of two-dimensional arrays: the
    rows of all arrays, in order.  It raises [ValueError] for an empty
    list and when the arrays do not all have the same number of
    columns. *)
Definition concatenate {A} (arrays : list (ndarray A)) : outcome (ndarray A) :=
  match arrays with
  | [] => Raised ValueError
  | a :: _ =>
      if decide (Forall (λ b, ncols b = ncols a) arrays)
      then Done (Ndarray (ncols a) (concat (rows <$> arrays)))
      else Raised ValueError
  end.

(** A figure is either a contour plot of an array under a title, or the
    figure [plt.gca().figure] that pyplot holds as the current one. *)
Inductive figure (A : Type) : Type :=
  | Contour (Z : ndarray A) (title : string)
  | CurrentFigure.
Arguments Contour {A} Z title.
Arguments CurrentFigure {A}.

(** What the notebook's user sees happen.  [refresh] is whatever number
    was passed on to [time.sleep]; the duration printed at the end is
    wall-clock time and is not represented. *)
Inductive event (A R : Type) : Type :=
  | Print (s : string)
  | PrintElapsed
  | ClearOutput
  | Display (f : figure A)
  | CloseAll
  | Sleep (refresh : R).
Arguments Print {A R} s.
Arguments PrintElapsed {A R}.
Arguments ClearOutput {A R}.
Arguments Display {A R} f.
Arguments CloseAll {A R}.
Arguments Sleep {A R} refresh.

(** ['Mesh: %i x %i, step %i/%i' % (nx, nyt, j+1, nsteps)] *)
Definition title (nx nyt j nsteps : Z) : string :=
  "Mesh: " +:+ pretty nx +:+ " x " +:+ pretty nyt +:+
  ", step " +:+ pretty (j + 1) +:+ "/" +:+ pretty nsteps.

(** What one call of [plot_current_results] gets from the engines:
    [view['Z']], one array per engine in engine order, and
    [view.pull(['nx', 'nyt', 'j', 'nsteps'], targets=0)]. *)
Record poll (A : Type) : Type := Poll {
  view_Z : outcome (list (ndarray A));
  view_pull : outcome (Z * Z * Z * Z)
}.
Arguments Poll {A}.
Arguments view_Z {A}.
Arguments view_pull {A}.

(** [Z = np.concatenate(mpi_order(view['Z']))] *)
Definition gather {A} (rank_indices : list Z) (w : poll A) : outcome (ndarray A) :=
  zs ← view_Z w;
  ordered ← lift (mpi_order rank_indices zs);
  concatenate ordered.

(** [plot_current_results(in_place)]: the events it causes, and the
    figure it returns or the exception it lets through.

<<
    try:
        Z = np.concatenate(mpi_order(view['Z']))
    except ValueError:
        print "dimension mismatch in Z, not plotting"
        ax = plt.gca()
        return ax.figure

    nx, nyt, j, nsteps = view.pull(['nx', 'nyt', 'j', 'nsteps'], targets=0)
    fig, ax = plt.subplots()
    ax.contourf(Z)
    ax.set_title('Mesh: %i x %i, step %i/%i' % (nx, nyt, j+1, nsteps))
    axis('off')
    if in_place:
        clear_output()
    display(fig)
    return fig
>> *)
Definition plot_current_results {A R} (rank_indices : list Z) (in_place : bool)
    (w : poll A) : list (event A R) * outcome (figure A) :=
  match gather rank_indices w with
  | Raised ValueError =>
      ([Print "dimension mismatch in Z, not plotting"], Done CurrentFigure)
  | Raised e => ([], Raised e)
  | Done Z =>
      match view_pull w with
      | Raised e => ([], Raised e)
      | Done (nx, nyt, j, nsteps) =>
          let fig := Contour Z (title nx nyt j nsteps) in
          ((if in_place then [ClearOutput] else []) ++ [Display fig], Done fig)
      end
  end.

(** [any(view.apply_sync(lambda : simulation_thread.is_alive()))], from
    the answer of the engines. *)
Definition simulation_alive (threads : outcome (list bool)) : outcome bool :=
  alive ← threads;
  mret (existsb id alive).

(** What one turn of the monitoring loop gets from outside: the engines'
    answer to [is_alive], the answers to the plot's calls, and whether
    [time.sleep] returns or is interrupted.  The user's interrupt is
    delivered where the notebook waits, in a call to the engines or in
    the sleep. *)
Record turn (A : Type) : Type := Turn {
  threads : outcome (list bool);
  polled : poll A;
  slept : outcome unit
}.
Arguments Turn {A}.
Arguments threads {A}.
Arguments polled {A}.
Arguments slept {A}.

(** The [while] loop of [monitor_simulation] over the turns it meets:

<<
        while simulation_alive():
            fig = plot_current_results(in_place=plots_in_place)
            plt.close('all') # prevent re-plot of old figures
            time.sleep(refresh) # so we don't hammer the server too fast
>>

    The result is the events, the value of [fig] when the loop is left,
    and how it is left.  It is [None] when the turns run out with the
    loop still going. *)
Fixpoint monitor_loop {A R} (rank_indices : list Z) (refresh : R)
    (plots_in_place : bool) (fig : option (figure A)) (turns : list (turn A))
    : option (list (event A R) * option (figure A) * outcome unit) :=
  match turns with
  | [] => None
  | t :: turns' =>
      match simulation_alive (threads t) with
      | Raised e => Some ([], fig, Raised e)
      | Done false => Some ([], fig, Done ())
      | Done true =>
          match plot_current_results rank_indices plots_in_place (polled t) with
          | (evs, Raised e) => Some (evs, fig, Raised e)
          | (evs, Done f) =>
              match slept t with
              | Raised e =>
                  Some (evs ++ [CloseAll; Sleep refresh], Some f, Raised e)
              | Done _ =>
                  match monitor_loop rank_indices refresh plots_in_place
                          (Some f) turns' with
                  | None => None
                  | Some (evs', fig', o) =>
                      Some (evs ++ [CloseAll; Sleep refresh] ++ evs', fig', o)
                  end
              end
          end
      end
  end.

(** [monitor_simulation(refresh, plots_in_place)].  [first] answers the
    first [simulation_alive()], [w] answers the plot of a simulation
    found finished, [turns] are met by the loop.

<<
    if not simulation_alive():
        plot_current_results(in_place=plots_in_place)
        plt.close('all')
        print 'Simulation has already finished, no monitoring to do.'
        return

    t0 = dt.datetime.now()
    fig = None
    try:
        while simulation_alive():
            ...
    except (KeyboardInterrupt, error.TimeoutError):
        msg = 'Monitoring interrupted, simulation is ongoing!'
    else:
        msg = 'Simulation completed!'
    tmon = dt.datetime.now() - t0
    if plots_in_place and fig is not None:
        clear_output()
        plt.close('all')
        display(fig)
    print msg
    print 'Monitored for: %s.' % tmon
>> *)
Definition monitor_simulation {A R} (rank_indices : list Z) (refresh : R)
    (plots_in_place : bool) (first : outcome (list bool)) (w : poll A)
    (turns : list (turn A)) : option (list (event A R) * outcome unit) :=
  match simulation_alive first with
  | Raised e => Some ([], Raised e)
  | Done false =>
      match plot_current_results rank_indices plots_in_place w with
      | (evs, Raised e) => Some (evs, Raised e)
      | (evs, Done _) =>
          Some (evs ++ [CloseAll;
                        Print "Simulation has already finished, no monitoring to do."],
                Done ())
      end
  | Done true =>
      match monitor_loop rank_indices refresh plots_in_place None turns with
      | None => None
      | Some (evs, fig, o) =>
          let finish msg :=
            Some (evs ++
                  match fig with
                  | Some f =>
                      if plots_in_place then [ClearOutput; CloseAll; Display f]
                      else []
                  | None => []
                  end ++ [Print msg; PrintElapsed],
                  Done ()) in
          match o with
          | Done _ => finish "Simulation completed!"
          | Raised KeyboardInterrupt | Raised TimeoutError =>
              finish "Monitoring interrupted, simulation is ongoing!"
          | Raised e => Some (evs, Raised e)
          end
      end
  end.

(** ** Vocabulary of the statements about monitoring *)

(** The exceptions that the [except] clause of [monitor_simulation]
    names. *)
Definition suppressed (e : raised) : bool :=
  match e with
  | KeyboardInterrupt | TimeoutError => true
  | _ => false
  end.

(** A turn after which the loop goes round again: a thread is alive, the
    plot returns a figure and the sleep returns. *)
Definition quiet {A} (R : Type) (rank_indices : list Z) (plots_in_place : bool)
    (t : turn A) : Prop :=
  simulation_alive (threads t) = Done true ∧
  (∃ evs f, plot_current_results (R := R) rank_indices plots_in_place (polled t)
            = (evs, Done f)) ∧
  slept t = Done ().

(** What the user sees during a quiet turn. *)
Definition turn_events {A R} (rank_indices : list Z) (refresh : R)
    (plots_in_place : bool) (t : turn A) : list (event A R) :=
  (plot_current_results rank_indices plots_in_place (polled t)).1
    ++ [CloseAll; Sleep refresh].

(** The value of [fig] after the turns [ts], [fig] before them: the
    figure the last plot returned. *)
Definition fig_after {A} (R : Type) (rank_indices : list Z) (plots_in_place : bool)
    (fig : option (figure A)) (ts : list (turn A)) : option (figure A) :=
  foldl (λ fig t,
           match (plot_current_results (R := R) rank_indices plots_in_place
                    (polled t)).2 with
           | Done f => Some f
           | Raised _ => fig
           end) fig ts.

(** What [monitor_simulation] does with [fig] once the loop is left. *)
Definition closing {A R} (plots_in_place : bool) (fig : option (figure A))
    : list (event A R) :=
  match fig with
  | Some f => if plots_in_place then [ClearOutput; CloseAll; Display f] else []
  | None => []
  end.

(** ** The subscript *)

Section getitem.
Context {A : Type}.
Implicit Types (seq : list A) (x : Z) (v : A).

Lemma position_valid_index seq x : position seq x → valid_index seq x.
Proof. unfold position, valid_index. lia. Qed.

Lemma getitem_position seq x :
  position seq x → getitem seq x =
    match seq !! Z.to_nat x with Some v => Return v | None => Raise IndexError end.
Proof.
  unfold position, getitem. intros Hx. cbn zeta.
  rewrite (decide_False (P := x < 0)) by lia. by rewrite decide_True by lia.
Qed.

Lemma getitem_lookup seq x v :
  position seq x → getitem seq x = Return v ↔ seq !! Z.to_nat x = Some v.
Proof.
  intros Hx. rewrite getitem_position by done.
  destruct (seq !! Z.to_nat x); naive_solver.
Qed.

(** A subscript raises nothing but [IndexError]. *)
Lemma getitem_Raise seq x e :
  getitem seq x = Raise e ↔ e = IndexError ∧ ¬ valid_index seq x.
Proof.
  unfold getitem, valid_index. cbn zeta.
  set (n := Z.of_nat (length seq)).
  destruct (decide (x < 0)) as [Hneg|Hneg];
    (destruct (decide _) as [Hi|Hi]; [|split; [intros [= <-]; split; [done|lia]|by intros [-> _]]]).
  - destruct (lookup_lt_is_Some_2 seq (Z.to_nat (x + n))) as [v ->]; [lia|].
    split; [done|]. intros [_ []]. lia.
  - destruct (lookup_lt_is_Some_2 seq (Z.to_nat x)) as [v ->]; [lia|].
    split; [done|]. intros [_ []]. lia.
Qed.

Lemma getitem_is_Return seq x :
  valid_index seq x → ∃ v, getitem seq x = Return v.
Proof.
  intros Hx. destruct (getitem seq x) as [v|e] eqn:E; [by exists v|].
  apply getitem_Raise in E as [_ []]. done.
Qed.

(** A negative subscript reads from the end. *)
Lemma getitem_negative seq x :
  x < 0 → getitem seq x =
    if decide (- Z.of_nat (length seq) ≤ x)
    then getitem seq (x + Z.of_nat (length seq)) else Raise IndexError.
Proof.
  intros Hx. unfold getitem. cbn zeta.
  rewrite (decide_True (P := x < 0)) by done.
  destruct (decide (- _ ≤ x)).
  - by rewrite (decide_False (P := x + _ < 0)) by lia.
  - by rewrite decide_False by lia.
Qed.
End getitem.

(** ** The comprehension *)

Section comprehension.
Context {A : Type}.
Implicit Types (seq r : list A) (xs : list Z).

(** It returns [r] exactly when [r] lists, in order, what each subscript
    returns. *)
Lemma comprehension_Return seq xs r :
  comprehension seq xs = Return r ↔
  Forall2 (λ x v, getitem seq x = Return v) xs r.
Proof.
  revert r. induction xs as [|x xs IH]; intros r; simpl.
  - split; [intros [= <-]; constructor|by inversion 1].
  - unfold mbind, result_bind, mret, result_ret.
    destruct (getitem seq x) as [v|e] eqn:Hx.
    + destruct (comprehension seq xs) as [vs|e] eqn:Hxs.
      * split.
        -- intros [= <-]. constructor; [done|by apply (proj1 (IH vs))].
        -- inversion 1 as [|?? v' vs' Hv Hvs]; simplify_eq.
           apply (proj2 (IH vs')) in Hvs. congruence.
      * split; [done|]. inversion 1 as [|?? v' vs' Hv Hvs]; simplify_eq.
        by apply (proj2 (IH vs')) in Hvs.
    + split; [done|]. inversion 1; congruence.
Qed.

(** It raises exactly when some subscript does, and then [IndexError]. *)
Lemma comprehension_Raise seq xs e :
  comprehension seq xs = Raise e ↔
  e = IndexError ∧ Exists (λ x, ¬ valid_index seq x) xs.
Proof.
  induction xs as [|x xs IH]; simpl.
  - split; [done|]. intros [_ H]. inversion H.
  - unfold mbind, result_bind, mret, result_ret.
    destruct (getitem seq x) as [v|e'] eqn:Hx.
    + assert (valid_index seq x) as Hvalid.
      { destruct (decide (valid_index seq x)) as [|Hn]; [done|].
        assert (getitem seq x = Raise IndexError) as Hr
          by (by apply getitem_Raise).
        congruence. }
      destruct (comprehension seq xs) as [vs|e''] eqn:Hxs.
      * split; [done|]. intros [-> H]. apply Exists_cons in H as [H|H]; [done|].
        exfalso. pose proof (proj2 IH (conj eq_refl H)). congruence.
      * rewrite Exists_cons. split.
        -- intros [= <-]. destruct (proj1 IH eq_refl) as [-> ?]. auto.
        -- intros [-> [?|H]]; [done|].
           pose proof (proj2 IH (conj eq_refl H)). congruence.
    + apply getitem_Raise in Hx as [-> Hx].
      rewrite Exists_cons. split; [intros [= <-]; auto|by intros [-> _]].
Qed.

Lemma comprehension_total seq xs :
  Forall (valid_index seq) xs ↔ ∃ r, comprehension seq xs = Return r.
Proof.
  split.
  - intros Hxs. destruct (comprehension seq xs) as [r|e] eqn:E; [by exists r|].
    apply comprehension_Raise in E as [_ E].
    apply Exists_exists in E as (x & Hx & Hn).
    rewrite Forall_forall in Hxs. by destruct Hn; apply Hxs.
  - intros [r Hr]. apply Forall_forall. intros x Hx.
    destruct (decide (valid_index seq x)) as [|Hn]; [done|].
    assert (comprehension seq xs = Raise IndexError) as E.
    { apply comprehension_Raise. split; [done|].
      apply Exists_exists. eauto. }
    congruence.
Qed.

Lemma comprehension_length seq xs r :
  comprehension seq xs = Return r → length r = length xs.
Proof. intros H%comprehension_Return. symmetry. by eapply Forall2_length. Qed.
End comprehension.

(** ** The indirect sort *)

#[global] Instance key_le_trans : Transitive key_le.
Proof. intros [] [] []. unfold key_le. simpl. lia. Qed.

Lemma insert_entry_Permutation e l : insert_entry e l ≡ₚ e :: l.
Proof.
  induction l as [|e' l IH]; simpl; [done|].
  case_decide; [done|]. by rewrite IH, Permutation_swap.
Qed.

Lemma insert_entry_HdRel e0 e l :
  key_le e0 e → HdRel key_le e0 l → HdRel key_le e0 (insert_entry e l).
Proof.
  intros He Hl. destruct Hl as [|e' l He']; simpl; [by constructor|].
  case_decide; by constructor.
Qed.

Lemma insert_entry_Sorted e l :
  Sorted key_le l → Sorted key_le (insert_entry e l).
Proof.
  induction 1 as [|e' l Hl IH Hhd]; simpl; [by repeat constructor|].
  case_decide as Hlt.
  - repeat constructor; [done..|]. unfold key_le. lia.
  - constructor; [done|]. apply insert_entry_HdRel; [|done].
    unfold key_le. lia.
Qed.

Lemma sort_entries_acc_Permutation acc l :
  foldl (λ acc e, insert_entry e acc) acc l ≡ₚ acc ++ l.
Proof.
  revert acc. induction l as [|e l IH]; intros acc; simpl.
  - by rewrite app_nil_r.
  - rewrite IH, insert_entry_Permutation. apply Permutation_middle.
Qed.

Lemma sort_entries_acc_Sorted acc l :
  Sorted key_le acc → Sorted key_le (foldl (λ acc e, insert_entry e acc) acc l).
Proof.
  revert acc. induction l as [|e l IH]; intros acc Hacc; simpl; [done|].
  by apply IH, insert_entry_Sorted.
Qed.

Lemma sort_entries_Permutation l : sort_entries l ≡ₚ l.
Proof. apply sort_entries_acc_Permutation. Qed.

Lemma sort_entries_Sorted l : Sorted key_le (sort_entries l).
Proof. apply sort_entries_acc_Sorted. constructor. Qed.

Lemma Sorted_key_le_fst l : Sorted key_le l → Sorted Z.le (l.*1).
Proof. apply Sorted_fmap. by intros [] []. Qed.

Lemma Sorted_seqZ_le m n : Sorted Z.le (seqZ m n).
Proof.
  destruct (decide (0 ≤ n)) as [Hn|Hn]; [|rewrite seqZ_nil by lia; constructor].
  rewrite <-(Z2Nat.id n) by done. clear Hn. generalize (Z.to_nat n). clear n.
  intros n. revert m. induction n as [|n IH]; intros m; [constructor|].
  rewrite seqZ_cons by lia. rewrite Nat2Z.inj_succ, Z.pred_succ.
  constructor; [apply IH|].
  destruct n as [|n]; [constructor|].
  rewrite seqZ_cons by lia. constructor. lia.
Qed.

Section enumerate.
Implicit Types (a : list Z) (e : entry).

Lemma enumerate_fst a : (enumerate a).*1 = a.
Proof. apply fst_zip. rewrite length_seqZ. lia. Qed.

Lemma enumerate_snd a : (enumerate a).*2 = seqZ 0 (Z.of_nat (length a)).
Proof. apply snd_zip. rewrite length_seqZ. lia. Qed.

(** Every entry carries the key found at its position. *)
Lemma enumerate_elem_of a e :
  e ∈ enumerate a → position a e.2 ∧ a !! Z.to_nat e.2 = Some e.1.
Proof.
  destruct e as [k i]. intros (n & Hn)%list_elem_of_lookup_1.
  apply lookup_zip_Some in Hn as [Hk Hi].
  apply lookup_seqZ in Hi as [-> Hi]. simpl.
  unfold position. rewrite Z.add_0_l, Nat2Z.id. split; [lia|done].
Qed.

Lemma sort_enumerate_fst a : (sort_entries (enumerate a)).*1 ≡ₚ a.
Proof. by rewrite sort_entries_Permutation, enumerate_fst. Qed.

Lemma sort_enumerate_elem_of a :
  Forall (λ e, position a e.2 ∧ a !! Z.to_nat e.2 = Some e.1)
         (sort_entries (enumerate a)).
Proof.
  apply Forall_forall. intros e He. apply enumerate_elem_of.
  by rewrite <-(sort_entries_Permutation (enumerate a)).
Qed.

(** [argsort a] is a rearrangement of the positions of [a]. *)
Lemma argsort_Permutation a : argsort a ≡ₚ seqZ 0 (Z.of_nat (length a)).
Proof.
  unfold argsort. by rewrite sort_entries_Permutation, enumerate_snd.
Qed.

Lemma argsort_length a : length (argsort a) = length a.
Proof.
  rewrite (Permutation_length (argsort_Permutation a)), length_seqZ. lia.
Qed.

Lemma argsort_position a : Forall (position a) (argsort a).
Proof.
  rewrite argsort_Permutation. apply Forall_seqZ. unfold position. lia.
Qed.

Lemma sorted_keys_Sorted a : Sorted Z.le (sorted_keys a).
Proof. apply Sorted_key_le_fst, sort_entries_Sorted. Qed.

Lemma sorted_keys_Permutation a : sorted_keys a ≡ₚ a.
Proof. apply sort_enumerate_fst. Qed.

Lemma argsort_getitem a :
  Forall2 (λ x k, getitem a x = Return k) (argsort a) (sorted_keys a).
Proof.
  unfold argsort, sorted_keys.
  apply Forall2_fmap, Forall_Forall2_diag.
  eapply Forall_impl; [apply sort_enumerate_elem_of|].
  intros [k i]; simpl. intros [Hi Hk]. by apply getitem_lookup.
Qed.

(** Reading [a] through its own [argsort] returns its keys in ascending
    order, whatever [a] is. *)
Lemma mpi_order_argsort a : mpi_order (argsort a) a = Return (sorted_keys a).
Proof. apply comprehension_Return, argsort_getitem. Qed.

(** When [a] is a permutation of [0, ..., N-1] the ascending keys are
    [0, ..., N-1]. *)
Lemma sorted_keys_rank_permutation a :
  rank_permutation a → sorted_keys a = seqZ 0 (Z.of_nat (length a)).
Proof.
  intros Ha. apply (Sorted_unique Z.le).
  - apply sorted_keys_Sorted.
  - apply Sorted_seqZ_le.
  - by rewrite sorted_keys_Permutation.
Qed.
End enumerate.

(** ** Reading a list through a rearrangement of its positions *)

Section reorder.
Context {A : Type}.
Implicit Types (seq r : list A) (xs : list Z).

Lemma lookup_positions seq :
  (λ x, seq !! Z.to_nat x) <$> seqZ 0 (Z.of_nat (length seq)) = Some <$> seq.
Proof.
  apply list_eq. intros i. rewrite !list_lookup_fmap.
  destruct (decide (i < length seq)%nat) as [Hi|Hi].
  - rewrite lookup_seqZ_lt by lia. simpl. rewrite Z.add_0_l, Nat2Z.id.
    by destruct (lookup_lt_is_Some_2 seq i Hi) as [v ->].
  - rewrite lookup_seqZ_ge by lia. by rewrite lookup_ge_None_2 by lia.
Qed.

Lemma comprehension_positions seq xs r :
  Forall (position seq) xs →
  comprehension seq xs = Return r →
  (λ x, seq !! Z.to_nat x) <$> xs = Some <$> r.
Proof.
  intros Hxs Hr%comprehension_Return.
  apply list_eq_Forall2, Forall2_fmap.
  induction Hr as [|x v xs r Hv Hr IH]; [constructor|].
  apply Forall_cons in Hxs as [Hx Hxs].
  constructor; [|by apply IH]. by apply getitem_lookup.
Qed.

(** Read through a rearrangement of all its positions, a list is
    rearranged. *)
Lemma comprehension_Permutation seq xs r :
  xs ≡ₚ seqZ 0 (Z.of_nat (length seq)) →
  comprehension seq xs = Return r →
  r ≡ₚ seq.
Proof.
  intros Hxs Hr.
  assert (Forall (position seq) xs) as Hpos.
  { rewrite Hxs. apply Forall_seqZ. unfold position. lia. }
  pose proof (comprehension_positions _ _ _ Hpos Hr) as E.
  assert (Some <$> r ≡ₚ Some <$> seq) as Hperm.
  { by rewrite <-E, Hxs, lookup_positions. }
  apply Permutation_map_inv in Hperm as (r' & Hr' & Hperm).
  apply (inj (fmap Some)) in Hr'. by subst r'.
Qed.

(** Read through [0, 1, ..., N-1], a list of length [N] is unchanged. *)
Lemma comprehension_seqZ seq :
  comprehension seq (seqZ 0 (Z.of_nat (length seq))) = Return seq.
Proof.
  apply comprehension_Return, Forall2_same_length_lookup_2.
  - rewrite length_seqZ. lia.
  - intros i x v [-> Hi]%lookup_seqZ Hv. apply getitem_lookup.
    + unfold position. lia.
    + by rewrite Z.add_0_l, Nat2Z.id.
Qed.
End reorder.

(** ** The index built from a permutation of ranks *)

Section rank_permutation.
Implicit Types (ranks out : list Z).

Lemma rank_permutation_NoDup ranks : rank_permutation ranks → NoDup ranks.
Proof.
  unfold rank_permutation. intros H. rewrite H. apply NoDup_seqZ.
Qed.

Lemma rank_permutation_seqZ (N : nat) : rank_permutation (seqZ 0 (Z.of_nat N)).
Proof. unfold rank_permutation. by rewrite length_seqZ, Nat2Z.id. Qed.

Lemma argsort_rank_permutation ranks :
  rank_permutation ranks →
  Forall2 (λ x k, getitem ranks x = Return k)
          (argsort ranks) (seqZ 0 (Z.of_nat (length ranks))).
Proof.
  intros Hranks. rewrite <-sorted_keys_rank_permutation by done.
  apply argsort_getitem.
Qed.

(** Entry [k] of the index is the position at which [ranks] holds [k]. *)
Lemma argsort_inverse ranks (k : nat) :
  rank_permutation ranks → (k < length ranks)%nat →
  ∃ i : nat, argsort ranks !! k = Some (Z.of_nat i) ∧
             ranks !! i = Some (Z.of_nat k).
Proof.
  intros Hranks Hk.
  assert (seqZ 0 (Z.of_nat (length ranks)) !! k = Some (Z.of_nat k)) as Hseq.
  { by rewrite lookup_seqZ_lt by lia. }
  destruct (Forall2_lookup_r _ _ _ _ _ (argsort_rank_permutation _ Hranks) Hseq)
    as (x & Hx & Hget).
  assert (position ranks x) as Hpos
    by (eapply Forall_lookup_1; [apply argsort_position|done]).
  apply getitem_lookup in Hget; [|done].
  exists (Z.to_nat x). rewrite Z2Nat.id by (unfold position in Hpos; lia). done.
Qed.

(** The index of the ranks [0, 1, ..., N-1] is [0, 1, ..., N-1]. *)
Lemma argsort_seqZ (N : nat) :
  argsort (seqZ 0 (Z.of_nat N)) = seqZ 0 (Z.of_nat N).
Proof.
  pose proof (argsort_rank_permutation _ (rank_permutation_seqZ N)) as H.
  pose proof (argsort_position (seqZ 0 (Z.of_nat N))) as Hpos.
  rewrite length_seqZ, Nat2Z.id in H.
  apply list_eq_Forall2, Forall2_same_length_lookup_2.
  - by rewrite argsort_length.
  - intros i x k Hx Hk.
    pose proof (Forall2_lookup_lr _ _ _ _ _ _ H Hx Hk) as Hget.
    pose proof (Forall_lookup_1 _ _ _ _ Hpos Hx) as Hp.
    apply getitem_lookup in Hget; [|done].
    apply lookup_seqZ in Hget as [-> _]. unfold position in Hp. lia.
Qed.
(** Read the other way round, the index through the ranks, the answer is
    again [0, 1, ..., N-1]: the index is a two-sided inverse. *)
Lemma mpi_order_ranks_argsort ranks :
  rank_permutation ranks →
  mpi_order ranks (argsort ranks) = Return (seqZ 0 (Z.of_nat (length ranks))).
Proof.
  intros Hranks. apply comprehension_Return, Forall2_same_length_lookup_2.
  - rewrite length_seqZ. lia.
  - intros i k x Hk [-> Hi]%lookup_seqZ. rewrite Z.add_0_l.
    assert (k ∈ seqZ 0 (Z.of_nat (length ranks))) as Hin.
    { unfold rank_permutation in Hranks. rewrite <-Hranks.
      by eapply list_elem_of_lookup_2. }
    apply elem_of_seqZ in Hin.
    destruct (argsort_inverse ranks (Z.to_nat k) Hranks) as (j & Hj & Hkj); [lia|].
    rewrite Z2Nat.id in Hkj by lia.
    pose proof (NoDup_lookup _ _ _ _ (rank_permutation_NoDup _ Hranks) Hk Hkj) as <-.
    apply getitem_lookup; [|done].
    unfold position. rewrite argsort_length. lia.
Qed.
End rank_permutation.

(** ** Independence from the sorting routine *)

(** With pairwise distinct keys there is one rearrangement of the
    positions that reads the keys in ascending order, so every indirect
    sort returns what [argsort] returns. *)
Section argsort_unique.
Implicit Types (a out ks : list Z).

Lemma enumerate_entry_at a :
  enumerate a = entry_at a <$> seqZ 0 (Z.of_nat (length a)).
Proof.
  apply list_eq. intros i. unfold enumerate.
  rewrite lookup_zip_with, list_lookup_fmap.
  destruct (decide (i < length a)%nat) as [Hi|Hi].
  - rewrite lookup_seqZ_lt by lia.
    destruct (lookup_lt_is_Some_2 a i Hi) as [v Hv]. rewrite Hv. simpl.
    unfold entry_at. by rewrite Z.add_0_l, Nat2Z.id, Hv.
  - rewrite lookup_seqZ_ge by lia. by rewrite lookup_ge_None_2 by lia.
Qed.

Lemma zip_entry_at a out ks :
  Forall (position a) out →
  Forall2 (λ x k, getitem a x = Return k) out ks →
  zip ks out = entry_at a <$> out.
Proof.
  intros Hpos H. induction H as [|x k out ks Hx H IH]; [done|].
  apply Forall_cons in Hpos as [Hp Hpos]. simpl. f_equal; [|by apply IH].
  apply getitem_lookup in Hx; [|done]. unfold entry_at. by rewrite Hx.
Qed.

Lemma Sorted_fst_key_le (l : list entry) : Sorted Z.le (l.*1) → Sorted key_le l.
Proof.
  induction l as [|e l IH]; [constructor|].
  inversion 1 as [|?? Hl Hhd]; subst. constructor; [by apply IH|].
  destruct l as [|e' l]; [constructor|]. inversion Hhd; subst. by constructor.
Qed.

Lemma argsort_unique a out ks :
  NoDup a →
  out ≡ₚ seqZ 0 (Z.of_nat (length a)) →
  Forall2 (λ x k, getitem a x = Return k) out ks →
  Sorted Z.le ks →
  out = argsort a.
Proof.
  intros Hnd Hout Hget Hks.
  assert (Forall (position a) out) as Hpos.
  { rewrite Hout. apply Forall_seqZ. unfold position. lia. }
  pose proof (zip_entry_at _ _ _ Hpos Hget) as Hzip.
  assert (length ks = length out) as Hlen
    by (symmetry; by eapply Forall2_length).
  assert (zip ks out ≡ₚ enumerate a) as Hperm
    by (by rewrite Hzip, enumerate_entry_at, Hout).
  assert (zip ks out = sort_entries (enumerate a)) as E.
  { apply (Sorted_unique_strong key_le).
    - intros [k1 x1] [k2 x2] H1 H2. unfold key_le. simpl. intros Hle1 Hle2.
      rewrite Hperm in H1. rewrite sort_entries_Permutation in H2.
      apply enumerate_elem_of in H1 as [Hp1 Hk1], H2 as [Hp2 Hk2].
      simpl in *. assert (k1 = k2) as -> by lia. f_equal.
      pose proof (NoDup_lookup _ _ _ _ Hnd Hk1 Hk2).
      unfold position in Hp1, Hp2. lia.
    - apply Sorted_fst_key_le. by rewrite fst_zip by lia.
    - apply sort_entries_Sorted.
    - by rewrite sort_entries_Permutation. }
  unfold argsort. rewrite <-E. by rewrite snd_zip by lia.
Qed.
End argsort_unique.

(** * The statements about the two operations *)

Section operations.
Context {A : Type}.
Implicit Types (values result : list A) (ranks rank_index out : list Z).

(** C1. When [ranks] has length [N] and its values are a permutation of
    [0, ..., N-1], [rank_indices] returns a sequence [out] of length [N]
    in which entry [k] is the one position [i] with [ranks[i] = k]; [out]
    is the rearrangement of the positions that reads [ranks] in ascending
    order (an argsort). *)
Theorem rank_indices_inverse ranks :
  rank_permutation ranks →
  ∃ out,
    rank_indices ranks = Return out ∧
    length out = length ranks ∧
    (∀ k : nat, (k < length ranks)%nat →
       ∃ i : nat,
         out !! k = Some (Z.of_nat i) ∧
         ranks !! i = Some (Z.of_nat k) ∧
         ∀ j : nat, ranks !! j = Some (Z.of_nat k) → j = i) ∧
    out ≡ₚ seqZ 0 (Z.of_nat (length ranks)) ∧
    ∃ ks, Forall2 (λ x k, getitem ranks x = Return k) out ks ∧
          Sorted Z.le ks.
Proof.
  intros Hranks. exists (argsort ranks).
  split; [done|]. split; [apply argsort_length|]. split; [|split].
  - intros k Hk.
    destruct (argsort_inverse ranks k Hranks Hk) as (i & Hout & Hi).
    exists i. split; [done|]. split; [done|]. intros j Hj.
    eapply NoDup_lookup; [by apply rank_permutation_NoDup|done..].
  - apply argsort_Permutation.
  - exists (sorted_keys ranks).
    split; [apply argsort_getitem|apply sorted_keys_Sorted].
Qed.

(** C2. When [values] and [rank_index] have the same length and every
    entry of [rank_index] is a valid subscript of [values], [mpi_order]
    returns a sequence of that length whose entry [k] is
    [values[rank_index[k]]]; the outcome is a function of the two inputs
    alone. *)
Theorem mpi_order_subscripts values rank_index :
  length values = length rank_index →
  Forall (valid_index values) rank_index →
  ∃ result,
    mpi_order rank_index values = Return result ∧
    length result = length values ∧
    (∀ (k : nat) x, rank_index !! k = Some x →
       ∃ v, result !! k = Some v ∧
            getitem values x = Return v ∧
            (0 ≤ x → values !! Z.to_nat x = Some v)) ∧
    (∀ values' rank_index',
       values' = values → rank_index' = rank_index →
       mpi_order rank_index' values' = Return result).
Proof.
  intros Hlen Hvalid.
  destruct (proj1 (comprehension_total values rank_index) Hvalid) as [r Hr].
  exists r. split; [done|]. split; [|split].
  - by rewrite (comprehension_length _ _ _ Hr).
  - intros k x Hx. apply comprehension_Return in Hr.
    destruct (Forall2_lookup_l _ _ _ _ _ Hr Hx) as (v & Hv & Hget).
    exists v. split; [done|]. split; [done|]. intros Hx0.
    apply getitem_lookup; [|done].
    pose proof (Forall_lookup_1 _ _ _ _ Hvalid Hx) as Hvx.
    unfold valid_index in Hvx. unfold position. lia.
  - by intros ?? -> ->.
Qed.

(** C4. When the entries of [rank_index] are a permutation of
    [0, ..., N-1], [N] the length of [values], [mpi_order] returns a
    rearrangement of [values]: the same elements with the same
    multiplicities. *)
Theorem mpi_order_rearranges values rank_index :
  rank_index ≡ₚ seqZ 0 (Z.of_nat (length values)) →
  ∃ result,
    mpi_order rank_index values = Return result ∧ result ≡ₚ values.
Proof.
  intros Hperm.
  assert (Forall (valid_index values) rank_index) as Hvalid.
  { rewrite Hperm. apply Forall_seqZ. unfold valid_index. lia. }
  destruct (proj1 (comprehension_total values rank_index) Hvalid) as [r Hr].
  exists r. split; [done|]. by eapply comprehension_Permutation.
Qed.

(** C7. With [ranks = [0, 1, ..., N-1]] and [values] of length [N],
    building the index and reordering returns [values] unchanged; so it
    does for one engine and for three engines already in order. *)
Theorem reassemble_identity (N : nat) values ranks (x a b c : A) :
  length values = N →
  ranks = seqZ 0 (Z.of_nat N) →
  reassemble ranks values = Return values ∧
  reassemble [0] [x] = Return [x] ∧
  reassemble [0; 1; 2] [a; b; c] = Return [a; b; c].
Proof.
  intros <- ->. split; [|done].
  unfold reassemble, rank_indices, mpi_order. simpl.
  rewrite argsort_seqZ. apply comprehension_seqZ.
Qed.

(** C9, as the code has it.  When [values] is longer than [rank_index]
    and every entry of [rank_index] is a valid subscript of [values]
    (from [- |values|] to [|values| - 1], a negative entry counting from
    the end), [mpi_order] raises nothing and returns [|rank_index|]
    elements, fewer than [|values|]; and it raises, always [IndexError],
    exactly when some entry is [≥ |values|] or [< - |values|]. *)
Theorem mpi_order_surplus values rank_index :
  (length rank_index < length values)%nat →
  (Forall (valid_index values) rank_index →
     ∃ result,
       mpi_order rank_index values = Return result ∧
       length result = length rank_index ∧
       (length result < length values)%nat) ∧
  (∀ e, mpi_order rank_index values = Raise e ↔
     e = IndexError ∧
     Exists (λ x, Z.of_nat (length values) ≤ x ∨ x < - Z.of_nat (length values))
            rank_index).
Proof.
  intros Hlen. split.
  - intros Hvalid.
    destruct (proj1 (comprehension_total values rank_index) Hvalid) as [r Hr].
    exists r. pose proof (comprehension_length _ _ _ Hr). split; [done|]. lia.
  - intros e. unfold mpi_order. rewrite comprehension_Raise.
    assert (∀ x, ¬ valid_index values x ↔
                 Z.of_nat (length values) ≤ x ∨ x < - Z.of_nat (length values))
      as Hx by (intros x; unfold valid_index; lia).
    rewrite !Exists_exists. by setoid_rewrite Hx.
Qed.
End operations.

(** C3. For every permutation [P] of [0, ..., N-1], reordering [P] by the
    index built from [P] returns [[0, 1, ..., N-1]]: the index is the
    inverse permutation of [P] (and reordering the index by [P] returns
    [[0, 1, ..., N-1]] as well). *)
Theorem reassemble_inverse (P : list Z) :
  rank_permutation P →
  reassemble P P = Return (seqZ 0 (Z.of_nat (length P))) ∧
  ∃ idx, rank_indices P = Return idx ∧
         mpi_order idx P = Return (seqZ 0 (Z.of_nat (length P))) ∧
         mpi_order P idx = Return (seqZ 0 (Z.of_nat (length P))).
Proof.
  intros HP.
  assert (mpi_order (argsort P) P = Return (seqZ 0 (Z.of_nat (length P)))) as H.
  { rewrite mpi_order_argsort. f_equal. by apply sorted_keys_rank_permutation. }
  split; [done|]. exists (argsort P). split; [done|]. split; [done|].
  by apply mpi_order_ranks_argsort.
Qed.

(** C5, as the code has it.  There is no length check: with
    [|values| ≠ |rank_index|] the call never raises [LengthMismatchError].
    It returns [|rank_index|] elements when every entry of [rank_index]
    is a valid subscript of [values], and raises [IndexError] otherwise;
    in particular it raises [IndexError] when [rank_index] is a
    permutation of [0, ..., M-1] and [values] has fewer than [M]
    elements. *)
Theorem mpi_order_length_mismatch {A} (values : list A) (rank_index : list Z) :
  length values ≠ length rank_index →
  mpi_order rank_index values ≠ Raise LengthMismatchError ∧
  (Forall (valid_index values) rank_index →
     ∃ result, mpi_order rank_index values = Return result ∧
               length result = length rank_index) ∧
  (¬ Forall (valid_index values) rank_index →
     mpi_order rank_index values = Raise IndexError) ∧
  (rank_index ≡ₚ seqZ 0 (Z.of_nat (length rank_index)) →
     (length values < length rank_index)%nat →
     mpi_order rank_index values = Raise IndexError).
Proof.
  intros _.
  assert (¬ Forall (valid_index values) rank_index →
          mpi_order rank_index values = Raise IndexError) as Hraise.
  { intros Hn. destruct (mpi_order rank_index values) as [r|e] eqn:E.
    - destruct Hn. apply comprehension_total. by exists r.
    - by apply comprehension_Raise in E as [-> _]. }
  split; [|split; [|split]].
  - intros [[=] _]%comprehension_Raise.
  - intros Hvalid.
    destruct (proj1 (comprehension_total values rank_index) Hvalid) as [r Hr].
    exists r. split; [done|]. by eapply comprehension_length.
  - done.
  - intros Hperm Hlen. apply Hraise. rewrite Hperm. intros Hall.
    rewrite Forall_seqZ in Hall.
    specialize (Hall (Z.of_nat (length values))). unfold valid_index in Hall. lia.
Qed.

(** C6, as the code has it.  The ranks are not validated: when [ranks]
    is not a permutation of [0, ..., N-1] (a duplicate or a gap),
    [rank_indices] still returns, without any exception, a sequence of
    length [N] that is a rearrangement of the positions [0, ..., N-1]. *)
Theorem rank_indices_unvalidated (ranks : list Z) :
  ¬ rank_permutation ranks →
  ∃ out,
    rank_indices ranks = Return out ∧
    length out = length ranks ∧
    out ≡ₚ seqZ 0 (Z.of_nat (length ranks)).
Proof.
  intros _. exists (argsort ranks). split; [done|].
  split; [apply argsort_length|apply argsort_Permutation].
Qed.

(** C8. The four-engine scenario of the notebook: ranks [[1,3,0,2]] give
    the index [[2,0,3,1]], and that index reorders
    [["w0","w1","w2","w3"]] into [["w2","w0","w3","w1"]]. *)
Theorem scenario_four_engines :
  rank_indices [1; 3; 0; 2] = Return [2; 0; 3; 1] ∧
  mpi_order [2; 0; 3; 1] ["w0"; "w1"; "w2"; "w3"]%string
    = Return ["w2"; "w0"; "w3"; "w1"]%string.
Proof. split; reflexivity. Qed.

(** C10. [rank_indices] returns on every integer sequence, permutation or
    not, and what it returns is always a rearrangement of the positions
    [0, ..., N-1]; a reordering by it therefore never raises and returns
    a rearrangement of the values, right or wrong. *)
Theorem rank_indices_total (ranks : list Z) :
  ∃ out,
    rank_indices ranks = Return out ∧
    length out = length ranks ∧
    out ≡ₚ seqZ 0 (Z.of_nat (length ranks)) ∧
    ∀ (A : Type) (values : list A),
      length values = length ranks →
      ∃ result, reassemble ranks values = Return result ∧ result ≡ₚ values.
Proof.
  exists (argsort ranks). split; [done|]. split; [apply argsort_length|].
  split; [apply argsort_Permutation|]. intros A values Hlen.
  assert (Forall (valid_index values) (argsort ranks)) as Hvalid.
  { rewrite argsort_Permutation. apply Forall_seqZ. unfold valid_index. lia. }
  destruct (proj1 (comprehension_total values (argsort ranks)) Hvalid) as [r Hr].
  exists r. split; [done|]. eapply comprehension_Permutation; [|done].
  rewrite Hlen. apply argsort_Permutation.
Qed.

(** * Instances *)

(** The notebook's four engines report the ranks [[1,3,0,2]]. *)
Lemma rank_indices_inverse_witness :
  rank_permutation [1; 3; 0; 2] ∧
  ∃ out, rank_indices [1; 3; 0; 2] = Return out ∧ length out = 4%nat ∧
         out !! 0%nat = Some 2 ∧ [1; 3; 0; 2] !! 2%nat = Some 0.
Proof.
  assert (rank_permutation [1; 3; 0; 2]) as H by compute_done.
  split; [exact H|].
  destruct (rank_indices_inverse [1; 3; 0; 2] H) as (out & Hout & Hlen & Hk & _).
  exists out. split; [exact Hout|]. split; [exact Hlen|].
  destruct (Hk 0%nat) as (i & Hi & Hr & Huniq); [simpl; lia|].
  rewrite <-(Huniq 2%nat eq_refl) in Hi. split; [exact Hi|reflexivity].
Defined.

Lemma mpi_order_subscripts_witness :
  length ["w0"; "w1"; "w2"; "w3"]%string = length [2; 0; 3; -1] ∧
  Forall (valid_index ["w0"; "w1"; "w2"; "w3"]%string) [2; 0; 3; -1] ∧
  ∃ result,
    mpi_order [2; 0; 3; -1] ["w0"; "w1"; "w2"; "w3"]%string = Return result ∧
    length result = 4%nat.
Proof.
  assert (Forall (valid_index ["w0"; "w1"; "w2"; "w3"]%string) [2; 0; 3; -1])
    as H by compute_done.
  split; [reflexivity|]. split; [exact H|].
  destruct (mpi_order_subscripts ["w0"; "w1"; "w2"; "w3"]%string [2; 0; 3; -1]
              eq_refl H) as (r & Hr & Hlen & _).
  exists r. split; [exact Hr|exact Hlen].
Defined.

Lemma reassemble_inverse_witness :
  rank_permutation [1; 3; 0; 2] ∧
  reassemble [1; 3; 0; 2] [1; 3; 0; 2] = Return [0; 1; 2; 3].
Proof.
  assert (rank_permutation [1; 3; 0; 2]) as H by compute_done.
  split; [exact H|]. exact (proj1 (reassemble_inverse [1; 3; 0; 2] H)).
Defined.

Lemma mpi_order_rearranges_witness :
  [2; 0; 3; 1] ≡ₚ seqZ 0 (Z.of_nat (length ["w0"; "w1"; "w2"; "w3"]%string)) ∧
  ∃ result,
    mpi_order [2; 0; 3; 1] ["w0"; "w1"; "w2"; "w3"]%string = Return result ∧
    result ≡ₚ ["w0"; "w1"; "w2"; "w3"]%string.
Proof.
  assert ([2; 0; 3; 1] ≡ₚ seqZ 0 (Z.of_nat (length ["w0"; "w1"; "w2"; "w3"]%string)))
    as H by compute_done.
  split; [exact H|].
  exact (mpi_order_rearranges ["w0"; "w1"; "w2"; "w3"]%string [2; 0; 3; 1] H).
Defined.

Lemma reassemble_identity_witness :
  length ["a"; "b"; "c"]%string = 3%nat ∧
  [0; 1; 2] = seqZ 0 (Z.of_nat 3) ∧
  reassemble [0; 1; 2] ["a"; "b"; "c"]%string = Return ["a"; "b"; "c"]%string ∧
  reassemble [0] ["x"]%string = Return ["x"]%string.
Proof.
  split; [reflexivity|]. split; [reflexivity|].
  destruct (reassemble_identity 3 ["a"; "b"; "c"]%string [0; 1; 2]
              "x"%string "a"%string "b"%string "c"%string eq_refl eq_refl)
    as (H & Hx & _).
  split; [exact H|exact Hx].
Defined.

(** C9 fails as written: one entry, three values, the entry [-4] is
    below [- |values|]; [IndexError] is raised and no entry is
    [≥ |values|]. *)
Lemma mpi_order_surplus_below :
  (length [(-4)%Z] < length ["a"; "b"; "c"]%string)%nat ∧
  mpi_order [-4] ["a"; "b"; "c"]%string = Raise IndexError ∧
  ¬ Exists (λ x, Z.of_nat (length ["a"; "b"; "c"]%string) ≤ x) [-4].
Proof.
  split; [simpl; lia|]. split; [reflexivity|].
  intros [x [->%list_elem_of_singleton Hx]]%Exists_exists. simpl in Hx. lia.
Qed.

(** More values than index entries, one entry counted from the end:
    nothing is raised, the middle value is never read. *)
Lemma mpi_order_surplus_witness :
  (length [(-1)%Z; 0%Z] < length ["a"; "b"; "c"]%string)%nat ∧
  Forall (valid_index ["a"; "b"; "c"]%string) [-1; 0] ∧
  ∃ result,
    mpi_order [-1; 0] ["a"; "b"; "c"]%string = Return result ∧
    length result = 2%nat.
Proof.
  assert (length [(-1)%Z; 0%Z] < length ["a"; "b"; "c"]%string)%nat as Hlen
    by (simpl; lia).
  assert (Forall (valid_index ["a"; "b"; "c"]%string) [-1; 0]) as Hvalid
    by compute_done.
  split; [exact Hlen|]. split; [exact Hvalid|].
  destruct (proj1 (mpi_order_surplus ["a"; "b"; "c"]%string [-1; 0] Hlen) Hvalid)
    as (r & Hr & Hl & _).
  exists r. split; [exact Hr|exact Hl].
Defined.

(** C5 fails as written: three values and an index of four entries, no
    exception at all. *)
Lemma mpi_order_length_mismatch_returns :
  length ["a"; "b"; "c"]%string = 3%nat ∧
  length [0; 1; 2; 0] = 4%nat ∧
  mpi_order [0; 1; 2; 0] ["a"; "b"; "c"]%string
    = Return ["a"; "b"; "c"; "a"]%string ∧
  mpi_order [0; 1; 2; 0] ["a"; "b"; "c"]%string ≠ Raise LengthMismatchError.
Proof. repeat split; done. Qed.

(** Three values and the index of four engines: [IndexError]. *)
Lemma mpi_order_length_mismatch_witness :
  length ["a"; "b"; "c"]%string ≠ length [2; 0; 3; 1] ∧
  mpi_order [2; 0; 3; 1] ["a"; "b"; "c"]%string = Raise IndexError.
Proof.
  assert (length ["a"; "b"; "c"]%string ≠ length [2; 0; 3; 1]) as H
    by (simpl; lia).
  split; [exact H|].
  destruct (mpi_order_length_mismatch ["a"; "b"; "c"]%string [2; 0; 3; 1] H)
    as (_ & _ & _ & Hraise).
  apply Hraise; [compute_done|simpl; lia].
Defined.

(** C6 fails as written: rank 2 is missing and rank 3 is out of range,
    and no exception is raised.  The keys are pairwise distinct, so the
    index does not depend on the sorting routine. *)
Lemma rank_indices_gap_returns :
  length [3; 0; 1] = 3%nat ∧
  ¬ rank_permutation [3; 0; 1] ∧
  rank_indices [3; 0; 1] = Return [1; 2; 0] ∧
  rank_indices [3; 0; 1] ≠ Raise InvalidInputError.
Proof. split; [done|]. split; [compute_done|]. split; done. Qed.

Lemma rank_indices_unvalidated_witness :
  ¬ rank_permutation [3; 0; 1] ∧
  ∃ out, rank_indices [3; 0; 1] = Return out ∧
         out ≡ₚ seqZ 0 (Z.of_nat (length [3; 0; 1])).
Proof.
  assert (¬ rank_permutation [3; 0; 1]) as H by compute_done.
  split; [exact H|].
  destruct (rank_indices_unvalidated [3; 0; 1] H) as (out & Hout & _ & Hperm).
  exists out. split; [exact Hout|exact Hperm].
Defined.

(** Malformed ranks give a reordering that looks plausible. *)
Lemma rank_indices_total_witness :
  length ["a"; "b"; "c"]%string = length [2; 0; 2] ∧
  ∃ result,
    reassemble [2; 0; 2] ["a"; "b"; "c"]%string = Return result ∧
    result ≡ₚ ["a"; "b"; "c"]%string.
Proof.
  split; [reflexivity|].
  destruct (rank_indices_total [2; 0; 2]) as (out & _ & _ & _ & H).
  exact (H string ["a"; "b"; "c"]%string eq_refl).
Defined.

(** * Further properties of the reordering *)

Section subscripts.
Context {A : Type}.
Implicit Types (seq : list A) (x : Z) (v : A).

(** A subscript returns the entry at the position it denotes, counted
    from the front or from the end. *)
Lemma getitem_Return seq x v :
  getitem seq x = Return v ↔
  ∃ i : nat, seq !! i = Some v ∧
             (x = Z.of_nat i ∨ x = Z.of_nat i - Z.of_nat (length seq)).
Proof.
  split.
  - destruct (decide (x < 0)) as [Hneg|Hpos].
    + rewrite getitem_negative by done. case_decide as Hlow; [|done].
      intros Hv. apply getitem_lookup in Hv; [|unfold position; lia].
      exists (Z.to_nat (x + Z.of_nat (length seq))). split; [done|]. lia.
    + intros Hv.
      assert (position seq x) as Hp.
      { destruct (decide (valid_index seq x)) as [Hvalid|Hn].
        - unfold valid_index in Hvalid. unfold position. lia.
        - assert (getitem seq x = Raise IndexError) as E
            by (by apply getitem_Raise).
          congruence. }
      apply getitem_lookup in Hv; [|done].
      exists (Z.to_nat x). split; [done|]. unfold position in Hp. lia.
  - intros (i & Hi & Hx). pose proof (lookup_lt_Some _ _ _ Hi) as Hlt.
    destruct Hx as [->| ->].
    + apply getitem_lookup; [unfold position; lia|]. by rewrite Nat2Z.id.
    + rewrite getitem_negative by lia. rewrite decide_True by lia.
      apply getitem_lookup; [unfold position; lia|].
      by replace (Z.to_nat _) with i by lia.
Qed.
End subscripts.

Lemma getitem_zip {A B} (a : list A) (b : list B) x u v :
  length a = length b →
  getitem a x = Return u → getitem b x = Return v →
  getitem (zip a b) x = Return (u, v).
Proof.
  intros Hlen (i & Hi & Hx)%getitem_Return (i' & Hi' & Hx')%getitem_Return.
  pose proof (lookup_lt_Some _ _ _ Hi). pose proof (lookup_lt_Some _ _ _ Hi').
  assert (i' = i) as -> by lia.
  apply getitem_Return. exists i. split.
  - apply lookup_zip_Some. done.
  - rewrite length_zip_with. lia.
Qed.

Lemma comprehension_zip {A B} (a : list A) (b : list B) xs us vs :
  length a = length b →
  comprehension a xs = Return us → comprehension b xs = Return vs →
  comprehension (zip a b) xs = Return (zip us vs).
Proof.
  intros Hlen Hus%comprehension_Return Hvs%comprehension_Return.
  apply comprehension_Return. revert vs Hvs.
  induction Hus as [|x u xs us Hu Hus IH]; intros vs Hvs.
  - inversion Hvs. constructor.
  - inversion Hvs as [|? v ? vs' Hv Hvs']; subst. simpl. constructor.
    + by apply getitem_zip.
    + by apply IH.
Qed.

Lemma comprehension_compose {A} (seq r2 : list A) (idx1 idx2 idx12 : list Z) :
  comprehension seq idx2 = Return r2 →
  comprehension idx2 idx1 = Return idx12 →
  ∃ r, comprehension r2 idx1 = Return r ∧ comprehension seq idx12 = Return r.
Proof.
  intros H2%comprehension_Return H12%comprehension_Return.
  pose proof (Forall2_length _ _ _ H2) as Hlen.
  enough (∃ r, Forall2 (λ x v, getitem r2 x = Return v) idx1 r ∧
               Forall2 (λ y v, getitem seq y = Return v) idx12 r) as (r & ? & ?).
  { exists r. by rewrite !comprehension_Return. }
  induction H12 as [|x y idx1 idx12 Hxy H12 (r & Hr1 & Hr12)].
  { exists []. split; constructor. }
  apply getitem_Return in Hxy as (i & Hi & Hx).
  destruct (Forall2_lookup_l _ _ _ _ _ H2 Hi) as (v & Hv & Hget).
  exists (v :: r). split; constructor; try done.
  apply getitem_Return. exists i. split; [done|]. lia.
Qed.

(** X1. The ranks need not be numbered from 0 nor be without gaps: for
    pairwise distinct ranks that fit 64-bit signed integers, building the
    index and reordering returns the values in ascending order of their
    engines' ranks.  The ranks reordered the same way ascend, and pairing
    them with the reordered values place by place gives back the pairs of
    rank and value of the engines. *)
Theorem reassemble_sorts_by_rank {A} (ranks : list Z) (values : list A) :
  NoDup ranks →
  Forall int64 ranks →
  length values = length ranks →
  ∃ ks result,
    reassemble ranks ranks = Return ks ∧
    reassemble ranks values = Return result ∧
    Sorted Z.le ks ∧
    zip ks result ≡ₚ zip ranks values.
Proof.
  intros _ _ Hlen.
  assert (Forall (valid_index values) (argsort ranks)) as Hvalid.
  { rewrite argsort_Permutation. apply Forall_seqZ. unfold valid_index. lia. }
  destruct (proj1 (comprehension_total values (argsort ranks)) Hvalid) as [r Hr].
  exists (sorted_keys ranks), r.
  split; [apply mpi_order_argsort|]. split; [done|].
  split; [apply sorted_keys_Sorted|].
  eapply comprehension_Permutation.
  - rewrite length_zip_with, <-Hlen, Nat.min_id, Hlen. apply argsort_Permutation.
  - apply comprehension_zip; [done|apply mpi_order_argsort|done].
Qed.

(** X2. When no rank occurs twice and the ranks fit 64-bit signed
    integers there is one index that sorts: any rearrangement of the
    positions through which [ranks] reads in ascending order is the index
    [rank_indices] builds. *)
Theorem rank_indices_unique (ranks out ks : list Z) :
  NoDup ranks →
  Forall int64 ranks →
  out ≡ₚ seqZ 0 (Z.of_nat (length ranks)) →
  mpi_order out ranks = Return ks →
  Sorted Z.le ks →
  rank_indices ranks = Return out.
Proof.
  intros Hnd _ Hout Hks%comprehension_Return Hsorted.
  unfold rank_indices. f_equal. symmetry. by eapply argsort_unique.
Qed.

(** X3. Reordering twice is reordering once by the reordered index:
    reading [seq] through [idx2] and the outcome through [idx1] returns
    what reading [seq] through ([idx2] read through [idx1]) returns. *)
Theorem mpi_order_compose {A} (seq r2 : list A) (idx1 idx2 idx12 : list Z) :
  mpi_order idx2 seq = Return r2 →
  mpi_order idx1 idx2 = Return idx12 →
  ∃ r, mpi_order idx1 r2 = Return r ∧ mpi_order idx12 seq = Return r.
Proof. apply comprehension_compose. Qed.

(** * The engines' simulation *)

Section mesh_sizes.
Implicit Types (size j : Z).

Lemma nx_ge j : 0 ≤ j → 2 ≤ nx j.
Proof. intros Hj. unfold nx. pose proof (Z.div_pos j 4 Hj). lia. Qed.

Lemma ny_ge size j : 0 < size → 0 ≤ j → 2 ≤ ny size j.
Proof.
  intros Hs Hj. unfold ny.
  pose proof (Z.div_pos (j / 2) size (Z.div_pos j 2 Hj ltac:(lia)) Hs). lia.
Qed.

(** [j/2/size] is [j/(2*size)]. *)
Lemma ny_div size j : 0 < size → ny size j = 2 + j / (2 * size).
Proof. intros Hs. unfold ny. by rewrite Z.div_div by lia. Qed.

(** X4. The mesh is refined as the steps go by and never coarsened: a
    later step has at least as many columns and rows; the columns grow
    by one every 4 steps and the rows of a slab by one every [2 * size]
    steps. *)
Theorem mesh_refines size j j' :
  0 < size → 0 ≤ j → j ≤ j' →
  nx j ≤ nx j' ∧ ny size j ≤ ny size j' ∧ nyt size j ≤ nyt size j' ∧
  nx (j + 4) = nx j + 1 ∧ ny size (j + 2 * size) = ny size j + 1.
Proof.
  intros Hs Hj Hjj'.
  assert (nx j ≤ nx j') as Hnx
    by (unfold nx; pose proof (Z.div_le_mono j j' 4); lia).
  assert (ny size j ≤ ny size j') as Hny.
  { rewrite !ny_div by done.
    pose proof (Z.div_le_mono j j' (2 * size)). lia. }
  split; [done|]. split; [done|]. split; [unfold nyt; nia|]. split.
  - unfold nx. replace (j + 4) with (j + 1 * 4) by lia.
    rewrite Z.div_add by lia. lia.
  - rewrite !ny_div by done.
    replace (j + 2 * size) with (j + 1 * (2 * size)) by lia.
    rewrite Z.div_add by lia. lia.
Qed.

Lemma ny_even_size size j j' :
  0 < size → Z.Even size → nx j = nx j' → ny size j = ny size j'.
Proof.
  intros Hs [h ->] Hnx. rewrite !ny_div by done.
  replace (2 * (2 * h)) with (4 * h) by lia.
  rewrite <-!Z.div_div by lia. unfold nx in Hnx.
  by replace (j / 4) with (j' / 4) by lia.
Qed.

(** X5. With an even number of engines the height of a slab is a
    function of its width: two steps with the same [nx] have the same
    [ny], so slabs that fit side by side also have the same height. *)
Theorem even_size_same_width_same_height size j j' :
  0 < size → Z.Even size →
  nx j = nx j' → ny size j = ny size j' ∧ nyt size j = nyt size j'.
Proof.
  intros Hs Heven Hnx. pose proof (ny_even_size size j j' Hs Heven Hnx) as Hny.
  split; [done|]. unfold nyt. by rewrite Hny.
Qed.

Lemma odd_size_steps size :
  3 ≤ size → Z.Odd size →
  nx (2 * size - 1) = nx (2 * size) ∧
  ny size (2 * size - 1) = 2 ∧ ny size (2 * size) = 3.
Proof.
  intros Hs [h ->]. split; [|split].
  - unfold nx. f_equal.
    replace (2 * (2 * h + 1) - 1) with (1 + h * 4) by lia.
    replace (2 * (2 * h + 1)) with (2 + h * 4) by lia.
    rewrite !Z.div_add by lia. by rewrite !Z.div_small by lia.
  - rewrite ny_div by lia. rewrite Z.div_small by lia. done.
  - rewrite ny_div by lia. rewrite Z.div_same by lia. done.
Qed.

(** X6. With an odd number of engines, three or more, the steps
    [2 * size - 1] and [2 * size] have slabs of the same width and of
    different heights. *)
Theorem odd_size_same_width_other_height size :
  3 ≤ size → Z.Odd size →
  nx (2 * size - 1) = nx (2 * size) ∧
  ny size (2 * size - 1) ≠ ny size (2 * size).
Proof.
  intros Hs Hodd. destruct (odd_size_steps size Hs Hodd) as (Hnx & -> & ->).
  done.
Qed.
End mesh_sizes.

Section simulation.
Context {A : Type} (sample : Z → nat → nat → A).
Implicit Types (size j nsteps : Z) (stop : Z → bool) (g : option (globals A)).

Lemma mesh_nrows size j : Z.of_nat (nrows (mesh sample size j)) = Z.max 0 (ny size j).
Proof. unfold nrows, mesh. simpl. rewrite length_fmap, length_seq. lia. Qed.

Lemma mesh_rectangular size j : rectangular (mesh sample size j).
Proof.
  unfold rectangular, mesh. simpl. apply Forall_fmap, Forall_forall.
  intros r _. simpl. by rewrite length_fmap, length_seq.
Qed.

(** X7. What a step publishes agrees with itself: [Z] is a rectangular
    array with [nx] columns, its number of rows times [mpi.size] is
    [nyt], and it has at least two rows and two columns. *)
Theorem published_consistent size j :
  0 < size → 0 ≤ j →
  let g := published sample size j in
  rectangular (g_Z g) ∧
  Z.of_nat (ncols (g_Z g)) = g_nx g ∧
  size * Z.of_nat (nrows (g_Z g)) = g_nyt g ∧
  (2 ≤ nrows (g_Z g))%nat ∧ (2 ≤ ncols (g_Z g))%nat.
Proof.
  intros Hs Hj. simpl.
  pose proof (nx_ge j Hj). pose proof (ny_ge size j Hs Hj).
  pose proof (mesh_nrows size j).
  split; [apply mesh_rectangular|]. unfold nyt. simpl. lia.
Qed.

Lemma simulation_loop_seqZ size stop g m (n : nat) :
  (0 < n)%nat →
  ∃ k, m ≤ k < m + Z.of_nat n ∧
       simulation_loop sample size stop (seqZ m (Z.of_nat n)) g
         = Some (published sample size k) ∧
       (∀ j, m ≤ j < k → stop j = false) ∧
       (stop k = true ∨ k = m + Z.of_nat n - 1).
Proof.
  revert m g. induction n as [|n IH]; intros m g Hn; [lia|].
  rewrite seqZ_cons by lia. rewrite Nat2Z.inj_succ, Z.pred_succ. simpl.
  destruct (stop m) eqn:Hm.
  - exists m. split; [lia|]. split; [done|]. split; [intros; lia|by left].
  - destruct n as [|n].
    + exists m. simpl. split; [lia|]. split; [done|].
      split; [intros; lia|right; lia].
    + destruct (IH (Z.succ m) (Some (published sample size m)))
        as (k & Hk & Hrun & Hbefore & Hlast); [lia|].
      exists k. split; [lia|]. split; [done|]. split.
      * intros j Hj. destruct (decide (j = m)) as [->|]; [done|].
        apply Hbefore. lia.
      * destruct Hlast; [by left|right; lia].
Qed.

(** X8. A run of [simulation] with [nsteps > 0] ends at one step [k] of
    [range(nsteps)] and leaves that step's values in the globals: [k] is
    the first step whose test finds [stop] set, or the last step when no
    test does. *)
Theorem simulation_final size nsteps stop g :
  0 < nsteps →
  ∃ k, 0 ≤ k < nsteps ∧
       simulation sample size nsteps stop g = Some (published sample size k) ∧
       (∀ j, 0 ≤ j < k → stop j = false) ∧
       (stop k = true ∨ k = nsteps - 1).
Proof.
  intros Hn. unfold simulation.
  destruct (simulation_loop_seqZ size stop g 0 (Z.to_nat nsteps))
    as (k & Hk & Hrun & Hbefore & Hlast); [lia|].
  rewrite Z2Nat.id in * by lia.
  exists k. split; [lia|]. split; [done|]. split; [done|].
  destruct Hlast; [by left|right; lia].
Qed.

(** X9. Started with the globals unbound, [simulation] leaves them
    unbound exactly when [nsteps] is not positive: an empty [range]
    publishes nothing, any other run publishes. *)
Theorem simulation_unbound size nsteps stop :
  simulation sample size nsteps stop None = None ↔ nsteps ≤ 0.
Proof.
  split.
  - intros Hrun. destruct (decide (nsteps ≤ 0)) as [|Hn]; [done|].
    destruct (simulation_loop_seqZ size stop None 0 (Z.to_nat nsteps))
      as (k & _ & Hk & _); [lia|].
    rewrite Z2Nat.id in Hk by lia. unfold simulation in Hrun. congruence.
  - intros Hn. unfold simulation. by rewrite seqZ_nil by done.
Qed.
End simulation.

(** * Gathering and plotting *)

Lemma concat_Permutation {A} (l k : list (list A)) :
  l ≡ₚ k → concat l ≡ₚ concat k.
Proof.
  induction 1 as [|x l k _ IH|x y l|l k m _ IH1 _ IH2]; simpl.
  - done.
  - by rewrite IH.
  - by rewrite !(assoc_L (++)), (comm (++) y x).
  - by etrans.
Qed.

Lemma length_concat_const {A B} (f : A → list B) (l : list A) (c : nat) :
  Forall (λ x, length (f x) = c) l →
  length (concat (f <$> l)) = (length l * c)%nat.
Proof.
  induction 1 as [|x l Hx _ IH]; csimpl; [done|].
  rewrite length_app, IH, Hx. lia.
Qed.

Lemma comprehension_fmap {A B} (f : A → B) (seq : list A) xs r :
  comprehension seq xs = Return r →
  comprehension (f <$> seq) xs = Return (f <$> r).
Proof.
  intros Hr%comprehension_Return. apply comprehension_Return.
  induction Hr as [|x v xs r Hv Hr IH]; simpl; constructor; [|done].
  apply getitem_Return in Hv as (i & Hi & Hx). apply getitem_Return.
  exists i. rewrite list_lookup_fmap, Hi, length_fmap. done.
Qed.

Section concatenate.
Context {A : Type}.
Implicit Types (a b : ndarray A) (arrays : list (ndarray A)).

Lemma concatenate_Done arrays c :
  arrays ≠ [] → Forall (λ b, ncols b = c) arrays →
  concatenate arrays = Done (Ndarray c (concat (rows <$> arrays))).
Proof.
  intros Hne Hc. destruct arrays as [|a arrays]; [done|]. unfold concatenate.
  pose proof (Forall_inv Hc) as Ha. rewrite decide_True; [by rewrite Ha|].
  eapply Forall_impl; [done|]. simpl. congruence.
Qed.

(** [np.concatenate] raises nothing but [ValueError], and that for an
    empty list or for two arrays that differ in width. *)
Lemma concatenate_Raised arrays e :
  concatenate arrays = Raised e ↔
  e = ValueError ∧
  (arrays = [] ∨ ∃ b c, b ∈ arrays ∧ c ∈ arrays ∧ ncols b ≠ ncols c).
Proof.
  destruct arrays as [|a arrays]; simpl.
  { split; [intros [= <-]; auto|by intros [-> _]]. }
  case_decide as Hall.
  - split; [done|]. intros [_ [?|(b & c & Hb & Hc & Hne)]]; [done|].
    rewrite Forall_forall in Hall. destruct Hne.
    by rewrite (Hall b Hb), (Hall c Hc).
  - split; [|by intros [-> _]]. intros [= <-]. split; [done|]. right.
    apply not_Forall_Exists in Hall; [|apply _].
    apply Exists_exists in Hall as (b & Hb & Hne).
    exists b, a. split; [done|]. split; [left|done].
Qed.

Lemma concatenate_Done_inv arrays a :
  concatenate arrays = Done a →
  arrays ≠ [] ∧ Forall (λ b, ncols b = ncols a) arrays ∧
  rows a = concat (rows <$> arrays).
Proof.
  destruct arrays as [|a0 arrays]; [done|]. unfold concatenate.
  case_decide as Hall; [|done]. intros [= <-]. done.
Qed.
End concatenate.

Section gather.
Context {A R : Type}.
Implicit Types (w : poll A) (zs : list (ndarray A)) (idx : list Z).

Lemma gather_Done_inv idx w a :
  gather idx w = Done a →
  ∃ zs ordered, view_Z w = Done zs ∧ mpi_order idx zs = Return ordered ∧
                concatenate ordered = Done a.
Proof.
  unfold gather, mbind, outcome_bind.
  destruct (view_Z w) as [zs|] eqn:Hz; [|done].
  destruct (mpi_order idx zs) as [ordered|] eqn:Ho; [|done]. simpl.
  intros Ha. by exists zs, ordered.
Qed.

(** X10. With an index that is a rearrangement of the engines'
    positions, the gathered array has every row of every engine's array,
    none lost and none twice, and the width of each of them; it exists
    exactly when there is an engine and all arrays have one width. *)
Theorem gather_keeps_rows idx w zs :
  view_Z w = Done zs →
  idx ≡ₚ seqZ 0 (Z.of_nat (length zs)) →
  (∀ a, gather idx w = Done a →
     rows a ≡ₚ concat (rows <$> zs) ∧
     nrows a = list_sum (nrows <$> zs) ∧
     Forall (λ b, ncols b = ncols a) zs) ∧
  ((∃ a, gather idx w = Done a) ↔
     zs ≠ [] ∧ ∀ b c, b ∈ zs → c ∈ zs → ncols b = ncols c).
Proof.
  intros Hw Hidx.
  assert (Forall (valid_index zs) idx) as Hvalid.
  { rewrite Hidx. apply Forall_seqZ. unfold valid_index. lia. }
  destruct (proj1 (comprehension_total zs idx) Hvalid) as [ordered Hord].
  pose proof (comprehension_Permutation _ _ _ Hidx Hord) as Hperm.
  assert (gather idx w = concatenate ordered) as Hgather.
  { unfold gather, mbind, outcome_bind, mpi_order. by rewrite Hw, Hord. }
  rewrite Hgather. split.
  - intros a (Hne & Hcols & Hrows)%concatenate_Done_inv.
    assert (rows a ≡ₚ concat (rows <$> zs)) as Hr
      by (by rewrite Hrows, Hperm).
    split; [done|]. split; [|by rewrite <-Hperm].
    unfold nrows at 1. rewrite Hr, length_concat. f_equal.
    by rewrite <-list_fmap_compose.
  - split.
    + intros [a (Hne & Hcols & _)%concatenate_Done_inv]. split.
      * intros ->. by apply Permutation_nil_r in Hperm.
      * rewrite Hperm, Forall_forall in Hcols. intros b c Hb Hc.
        by rewrite (Hcols b Hb), (Hcols c Hc).
    + intros [Hne Hcols].
      destruct (concatenate ordered) as [a|e] eqn:E; [by exists a|].
      apply concatenate_Raised in E as [_ [->|(b & c & Hb & Hc & Hbc)]].
      * apply Permutation_nil_l in Hperm. by subst.
      * rewrite Hperm in Hb, Hc. destruct Hbc. by apply Hcols.
Qed.
End gather.

Section plot_current_results.
Context {A R : Type}.
Implicit Types (w : poll A) (zs ordered : list (ndarray A)) (idx : list Z).

Lemma gather_concatenate idx w zs ordered :
  view_Z w = Done zs → mpi_order idx zs = Return ordered →
  gather idx w = concatenate ordered.
Proof.
  intros Hw Hord. unfold gather, mbind, outcome_bind. by rewrite Hw, Hord.
Qed.

Lemma gather_IndexError idx w zs :
  view_Z w = Done zs → ¬ Forall (valid_index zs) idx →
  gather idx w = Raised (Subscript IndexError).
Proof.
  intros Hw Hn. unfold gather, mbind, outcome_bind. rewrite Hw.
  destruct (mpi_order idx zs) as [r|e] eqn:E.
  - destruct Hn. apply comprehension_total. by exists r.
  - by apply comprehension_Raise in E as [-> _].
Qed.

(** X11. When the engines' arrays have come back and the index reads
    them, [plot_current_results] prints "dimension mismatch in Z, not
    plotting", displays nothing and returns pyplot's current figure
    exactly when there is no array at all or two arrays differ in
    width. *)
Theorem plot_dimension_mismatch idx in_place w zs ordered :
  view_Z w = Done zs →
  mpi_order idx zs = Return ordered →
  plot_current_results (R := R) idx in_place w
    = ([Print "dimension mismatch in Z, not plotting"], Done CurrentFigure) ↔
  (ordered = [] ∨ ∃ b c, b ∈ ordered ∧ c ∈ ordered ∧ ncols b ≠ ncols c).
Proof.
  intros Hw Hord. unfold plot_current_results.
  rewrite (gather_concatenate _ _ _ _ Hw Hord). split.
  - destruct (concatenate ordered) as [a|e] eqn:E.
    + destruct (view_pull w) as [[[[??]?]?]|]; [|done].
      by destruct in_place.
    + apply concatenate_Raised in E as [-> E]. done.
  - intros Hmis.
    by rewrite (proj2 (concatenate_Raised ordered ValueError) (conj eq_refl Hmis)).
Qed.

(** X12. When fewer arrays come back than the index was built for,
    [plot_current_results] lets the [IndexError] of [mpi_order] through
    (its [except ValueError] does not catch it), having printed and
    displayed nothing. *)
Theorem plot_index_error idx in_place w zs (N : nat) :
  view_Z w = Done zs →
  idx ≡ₚ seqZ 0 (Z.of_nat N) →
  (length zs < N)%nat →
  plot_current_results (R := R) idx in_place w
    = ([], Raised (Subscript IndexError)).
Proof.
  intros Hw Hidx Hlen. unfold plot_current_results.
  rewrite (gather_IndexError idx w zs Hw); [done|].
  rewrite Hidx, Forall_seqZ. intros Hall.
  specialize (Hall (Z.of_nat (length zs))). unfold valid_index in Hall. lia.
Qed.

(** X13. When every engine is at the same step [j], the ranks are a
    permutation of [0, ..., size-1] and engine 0 reports that step's
    [nx], [nyt] and [j], the figure displayed is the contour plot of the
    slabs stacked in rank order, and that array is rectangular with the
    [nyt] rows and [nx] columns its title states. *)
Theorem plot_same_step (sample : Z → Z → nat → nat → A)
    (ranks idx : list Z) (size j nsteps : Z) (in_place : bool) :
  rank_permutation ranks →
  rank_indices ranks = Return idx →
  size = Z.of_nat (length ranks) →
  0 < size → 0 ≤ j →
  let slab rk := mesh (sample rk) size j in
  let stacked :=
    Ndarray (Z.to_nat (nx j)) (concat ((λ rk, rows (slab rk)) <$> seqZ 0 size)) in
  let fig := Contour stacked (title (nx j) (nyt size j) j nsteps) in
  plot_current_results (R := R) idx in_place
      (Poll (Done (slab <$> ranks)) (Done (nx j, nyt size j, j, nsteps)))
    = ((if in_place then [ClearOutput] else []) ++ [Display fig], Done fig) ∧
  rectangular stacked ∧
  Z.of_nat (nrows stacked) = nyt size j ∧
  Z.of_nat (ncols stacked) = nx j.
Proof.
  intros Hranks [= <-] -> Hsize Hj slab stacked fig.
  pose proof (nx_ge j Hj) as Hnx.
  pose proof (ny_ge _ j Hsize Hj) as Hny.
  assert (mpi_order (argsort ranks) (slab <$> ranks) =
          Return (slab <$> seqZ 0 (Z.of_nat (length ranks)))) as Hord.
  { rewrite <-sorted_keys_rank_permutation by done.
    apply comprehension_fmap, mpi_order_argsort. }
  assert (gather (argsort ranks)
            (Poll (Done (slab <$> ranks))
               (Done (nx j, nyt (Z.of_nat (length ranks)) j, j, nsteps)))
          = Done stacked) as Hgather.
  { erewrite gather_concatenate; [|done|exact Hord].
    rewrite (concatenate_Done _ (Z.to_nat (nx j))).
    - unfold stacked. by rewrite <-list_fmap_compose.
    - rewrite seqZ_cons by done. done.
    - apply Forall_fmap, Forall_forall. done. }
  split; [|split; [|split]].
  - unfold plot_current_results. by rewrite Hgather.
  - unfold rectangular, stacked. simpl. apply Forall_forall.
    intros r Hr. apply list_elem_of_In, in_concat in Hr as (rs & Hrs & Hr).
    apply list_elem_of_In, list_elem_of_fmap in Hrs as (rk & -> & _).
    apply list_elem_of_In in Hr.
    pose proof (mesh_rectangular (sample rk) (Z.of_nat (length ranks)) j) as Hrect.
    unfold rectangular in Hrect. rewrite Forall_forall in Hrect.
    by apply Hrect in Hr.
  - unfold nrows, stacked. simpl.
    rewrite (length_concat_const _ _ (Z.to_nat (ny (Z.of_nat (length ranks)) j))).
    + rewrite length_seqZ. unfold nyt. lia.
    + apply Forall_forall. intros rk _.
      unfold slab, mesh. simpl. by rewrite length_fmap, length_seq.
  - unfold stacked. simpl. lia.
Qed.
End plot_current_results.

(** * Monitoring *)

Lemma simulation_alive_Done (alive : list bool) (b : bool) :
  simulation_alive (Done alive) = Done b ↔ (b = true ↔ true ∈ alive).
Proof.
  unfold simulation_alive, mbind, outcome_bind, mret, outcome_ret.
  assert (existsb id alive = true ↔ true ∈ alive) as Hany.
  { rewrite existsb_exists. setoid_rewrite <-list_elem_of_In. split.
    - by intros ([] & Hin & ?).
    - intros Hin. by exists true. }
  split.
  - intros [= <-]. done.
  - intros Hb. f_equal. destruct b.
    + apply Hany. by apply Hb.
    + apply not_true_is_false. intros E%Hany%Hb. done.
Qed.

Section monitor_simulation.
Context {A R : Type}.
Implicit Types (idx : list Z) (refresh : R) (pip : bool).
Implicit Types (fig : option (figure A)) (t : turn A) (ts rest : list (turn A)).
Implicit Types (w : poll A) (first : outcome (list bool)).

(** Quiet turns are gone through one after the other. *)
Lemma monitor_loop_quiet idx refresh pip fig ts rest :
  Forall (quiet R idx pip) ts →
  monitor_loop idx refresh pip fig (ts ++ rest) =
    '(evs, fig', o) ← monitor_loop idx refresh pip (fig_after R idx pip fig ts) rest;
    Some ((ts ≫= turn_events idx refresh pip) ++ evs, fig', o).
Proof.
  intros Hts. revert fig.
  induction Hts as [|t ts (Ha & (evs & f & Hp) & Hs) _ IH]; intros fig.
  - simpl. by destruct (monitor_loop _ _ _ _ rest) as [[[??]?]|].
  - cbn [app monitor_loop]. rewrite Ha, Hp, Hs, IH.
    cbn [fig_after foldl]. rewrite Hp. cbn [snd].
    fold (fig_after R idx pip (Some f) ts).
    destruct (monitor_loop _ _ _ (fig_after _ _ _ _ ts) rest) as [[[evs' fig'] o]|];
      [|done].
    simpl.
    assert (turn_events idx refresh pip t = evs ++ [CloseAll; Sleep refresh])
      as -> by (unfold turn_events; by rewrite Hp).
    by rewrite <-!(assoc_L (++)).
Qed.

(** X14. The loop goes on exactly as long as the turns are quiet:
    [monitor_simulation], having found a thread alive at first, is still
    in its loop after the given turns if and only if each of them found a
    thread alive, got a figure from the plot and slept undisturbed. *)
Theorem monitor_goes_on idx refresh pip first w ts :
  simulation_alive first = Done true →
  monitor_simulation idx refresh pip first w ts = None ↔
  Forall (quiet R idx pip) ts.
Proof.
  intros Hfirst. unfold monitor_simulation. rewrite Hfirst.
  assert (∀ fig, monitor_loop idx refresh pip fig ts = None ↔
                 Forall (quiet R idx pip) ts) as Hloop.
  { induction ts as [|t ts IH]; intros fig; [split; [constructor|done]|].
    simpl. rewrite Forall_cons. unfold quiet at 1.
    destruct (simulation_alive (threads t)) as [[|]|e] eqn:Ha.
    - destruct (plot_current_results idx pip (polled t)) as [evs [f|e]] eqn:Hp.
      + destruct (slept t) as [[]|e] eqn:Hs.
        * specialize (IH (Some f)).
          destruct (monitor_loop idx refresh pip (Some f) ts) as [[[evs' fig'] o]|].
          -- split; [done|]. intros [_ Hq]. by apply IH in Hq.
          -- split; [|done]. intros _. split; [|by apply IH].
             split; [done|]. split; [by exists evs, f|done].
        * split; [done|]. by intros [(_ & _ & ?) _].
      + split; [done|]. by intros [(_ & (evs' & f & ?) & _) _].
    - split; [done|]. by intros [(? & _) _].
    - split; [done|]. by intros [(? & _) _]. }
  specialize (Hloop None).
  destruct (monitor_loop idx refresh pip None ts) as [[[evs fig] o]|].
  - split; [by destruct o as [[]|[]]|]. intros H. by apply Hloop in H.
  - split; [|done]. intros _. by apply Hloop.
Qed.

(** X15. When a thread is alive at first, the turns [ts] are quiet and
    the next turn finds no thread alive, [monitor_simulation] returns
    having shown the events of the quiet turns, then (with
    [plots_in_place]) the figure of the last plot, then "Simulation
    completed!" and the elapsed time.  With no quiet turn at all it shows
    no figure. *)
Theorem monitor_completed idx refresh pip first w ts t rest :
  simulation_alive first = Done true →
  Forall (quiet R idx pip) ts →
  simulation_alive (threads t) = Done false →
  monitor_simulation idx refresh pip first w (ts ++ t :: rest) =
    Some ((ts ≫= turn_events idx refresh pip)
            ++ closing pip (fig_after R idx pip None ts)
            ++ [Print "Simulation completed!"; PrintElapsed],
          Done ()) ∧
  (ts = [] →
   monitor_simulation idx refresh pip first w (ts ++ t :: rest) =
     Some ([Print "Simulation completed!"; PrintElapsed], Done ())).
Proof.
  intros Hfirst Hts Ht.
  assert (monitor_simulation idx refresh pip first w (ts ++ t :: rest) =
    Some ((ts ≫= turn_events idx refresh pip)
            ++ closing pip (fig_after R idx pip None ts)
            ++ [Print "Simulation completed!"; PrintElapsed],
          Done ())) as Hrun.
  { unfold monitor_simulation. rewrite Hfirst, monitor_loop_quiet by done.
    cbn [monitor_loop]. rewrite Ht. simpl. by rewrite app_nil_r. }
  split; [done|]. intros ->. by rewrite Hrun.
Qed.

(** X16. When in the loop the call that asks the engines whether a
    thread is alive, or the plot, raises [e] after the quiet turns [ts]:
    a [KeyboardInterrupt] or a [TimeoutError] is suppressed,
    [monitor_simulation] shows the figure of the last plot that returned
    and "Monitoring interrupted, simulation is ongoing!" and returns; any
    other exception, the [IndexError] of [mpi_order] among them, leaves
    [monitor_simulation] with nothing more shown. *)
Theorem monitor_raise_in_call idx refresh pip first w ts t rest e :
  simulation_alive first = Done true →
  Forall (quiet R idx pip) ts →
  simulation_alive (threads t) = Raised e ∨
    (simulation_alive (threads t) = Done true ∧
     plot_current_results (R := R) idx pip (polled t) = ([], Raised e)) →
  monitor_simulation idx refresh pip first w (ts ++ t :: rest) =
    if suppressed e
    then Some ((ts ≫= turn_events idx refresh pip)
                 ++ closing pip (fig_after R idx pip None ts)
                 ++ [Print "Monitoring interrupted, simulation is ongoing!";
                     PrintElapsed],
               Done ())
    else Some (ts ≫= turn_events idx refresh pip, Raised e).
Proof.
  intros Hfirst Hts Ht.
  unfold monitor_simulation. rewrite Hfirst, monitor_loop_quiet by done.
  cbn [monitor_loop].
  destruct Ht as [Ht|[Ht Hp]]; rewrite Ht; [|rewrite Hp];
    simpl; rewrite app_nil_r; by destruct e.
Qed.

(** X17. When [time.sleep] is interrupted after the quiet turns [ts] and
    the plot of one more turn, the interrupt is suppressed: the figure
    that this last plot returned is shown (with [plots_in_place]), then
    "Monitoring interrupted, simulation is ongoing!" and the elapsed
    time, and [monitor_simulation] returns. *)
Theorem monitor_interrupted_sleep idx refresh pip first w ts t rest evs f :
  simulation_alive first = Done true →
  Forall (quiet R idx pip) ts →
  simulation_alive (threads t) = Done true →
  plot_current_results (R := R) idx pip (polled t) = (evs, Done f) →
  slept t = Raised KeyboardInterrupt →
  monitor_simulation idx refresh pip first w (ts ++ t :: rest) =
    Some ((ts ≫= turn_events idx refresh pip)
            ++ (evs ++ [CloseAll; Sleep refresh])
            ++ closing pip (Some f)
            ++ [Print "Monitoring interrupted, simulation is ongoing!";
                PrintElapsed],
          Done ()).
Proof.
  intros Hfirst Hts Ht Hp Hs.
  unfold monitor_simulation. rewrite Hfirst, monitor_loop_quiet by done.
  cbn [monitor_loop]. rewrite Ht, Hp, Hs. simpl.
  by rewrite <-!(assoc_L (++)).
Qed.

(** X18. A [TimeoutError], which only a call to the engines raises,
    leaves [monitor_simulation] only from outside its loop: from the
    first [simulation_alive()], or from the plot of a simulation found
    finished. *)
Theorem monitor_timeout_escapes idx refresh pip first w ts evs :
  monitor_simulation idx refresh pip first w ts = Some (evs, Raised TimeoutError) →
  simulation_alive first = Raised TimeoutError ∨
  (simulation_alive first = Done false ∧
   plot_current_results idx pip w = (evs, Raised TimeoutError)).
Proof.
  unfold monitor_simulation.
  destruct (simulation_alive first) as [[]|e0].
  - destruct (monitor_loop idx refresh pip None ts) as [[[evs' fig] [[]|e']]|];
      [done| |done].
    by destruct e'.
  - destruct (plot_current_results idx pip w) as [evs' [f|e']].
    + done.
    + intros [= <- <-]. by right.
  - intros [= <- <-]. by left.
Qed.

(** X19. When no thread is alive at the first check, the loop's turns
    play no part: the plot is attempted once; if it returns, the trace
    ends with "Simulation has already finished, no monitoring to do." and
    no elapsed time is printed; if it raises, be it a
    [KeyboardInterrupt], [monitor_simulation] raises the same. *)
Theorem monitor_already_finished idx refresh pip first w :
  simulation_alive first = Done false →
  ∃ evs o,
    plot_current_results idx pip w = (evs, o) ∧
    ∀ ts,
      monitor_simulation idx refresh pip first w ts =
        match o with
        | Done _ =>
            Some (evs ++ [CloseAll;
                          Print "Simulation has already finished, no monitoring to do."],
                  Done ())
        | Raised e => Some (evs, Raised e)
        end.
Proof.
  intros Hfirst. destruct (plot_current_results idx pip w) as [evs o] eqn:Hp.
  exists evs, o. split; [done|]. intros ts.
  unfold monitor_simulation. rewrite Hfirst, Hp. by destruct o.
Qed.
End monitor_simulation.

(** * Polls that catch the engines at different steps *)

Section torn_polls.
Context {A : Type} (sample : Z → Z → nat → nat → A).
Implicit Types (engines : list (Z * Z)) (idx : list Z) (size : Z).

(** [engines] lists, in engine order, the rank of each engine and the
    step the poll catches it at; [view['Z']] then returns the slabs
    [mesh (sample rank) size step]. *)
Lemma slab_shape size (e : Z * Z) :
  ncols (mesh (sample e.1) size e.2) = Z.to_nat (nx e.2) ∧
  nrows (mesh (sample e.1) size e.2) = Z.to_nat (ny size e.2).
Proof. unfold nrows, mesh. simpl. by rewrite length_fmap, length_seq. Qed.

Lemma gather_Permutation idx (w : poll A) zs :
  view_Z w = Done zs →
  idx ≡ₚ seqZ 0 (Z.of_nat (length zs)) →
  ∃ ordered, ordered ≡ₚ zs ∧ gather idx w = concatenate ordered.
Proof.
  intros Hw Hidx.
  assert (Forall (valid_index zs) idx) as Hvalid.
  { rewrite Hidx. apply Forall_seqZ. unfold valid_index. lia. }
  destruct (proj1 (comprehension_total zs idx) Hvalid) as [ordered Hord].
  exists ordered. split; [by eapply comprehension_Permutation|].
  by apply (gather_concatenate _ _ zs).
Qed.

(** X20. With an even number of engines a poll that is gathered without
    a dimension mismatch is consistent, whatever steps it caught the
    engines at: the gathered array has the [nx] columns and the [nyt]
    rows of every engine's step. *)
Theorem even_size_gather_consistent engines idx size pulled a :
  size = Z.of_nat (length engines) →
  Z.Even size →
  idx ≡ₚ seqZ 0 size →
  Forall (λ e, 0 ≤ e.2) engines →
  gather idx (Poll (Done ((λ e, mesh (sample e.1) size e.2) <$> engines)) pulled)
    = Done a →
  Forall (λ e, nx e.2 = Z.of_nat (ncols a) ∧ nyt size e.2 = Z.of_nat (nrows a))
         engines.
Proof.
  intros -> Heven Hidx Hsteps Hgather.
  set (slab := λ e : Z * Z, mesh (sample e.1) (Z.of_nat (length engines)) e.2)
    in *.
  destruct (gather_Permutation idx (Poll (Done (slab <$> engines)) pulled)
              (slab <$> engines) eq_refl)
    as (ordered & Hperm & Hcat); [by rewrite length_fmap|].
  rewrite Hcat in Hgather.
  apply concatenate_Done_inv in Hgather as (Hne & Hcols & Hrows).
  rewrite Hperm, Forall_fmap in Hcols.
  assert (Forall (λ e, nx e.2 = Z.of_nat (ncols a)) engines) as Hnx.
  { rewrite Forall_forall in Hcols, Hsteps. apply Forall_forall. intros e He.
    pose proof (Hcols e He) as Hc. simpl in Hc.
    pose proof (nx_ge e.2 (Hsteps e He)). lia. }
  apply Forall_forall. intros e0 He0. rewrite Forall_forall in Hnx.
  split; [by apply Hnx|].
  assert (0 < Z.of_nat (length engines)) as Hsize.
  { destruct engines; [by apply elem_of_nil in He0|simpl; lia]. }
  assert (length (rows a) =
          (length engines * Z.to_nat (ny (Z.of_nat (length engines)) e0.2))%nat)
    as Hlen.
  { rewrite Hrows, Hperm, <-list_fmap_compose.
    apply length_concat_const, Forall_forall. intros e He. simpl.
    rewrite length_fmap, length_seq. f_equal.
    apply ny_even_size; [done..|]. by rewrite !Hnx. }
  rewrite Forall_forall in Hsteps.
  pose proof (ny_ge _ e0.2 Hsize (Hsteps e0 He0)).
  unfold nyt, nrows. rewrite Hlen. lia.
Qed.

(** X21. With an odd number of engines, three or more, a poll can catch
    slabs of different heights and still be gathered: when engine 0 is
    at step [2 * size] and the others are one step behind, the gathered
    array has [2 * size + 1] rows, which is the [nyt] of neither step. *)
Theorem odd_size_torn_poll (n : nat) pulled :
  let size := Z.of_nat n in
  let engines :=
    (0, 2 * size) :: ((λ rk, (rk, 2 * size - 1)) <$> seqZ 1 (size - 1)) in
  3 ≤ size → Z.Odd size →
  ∃ idx a,
    rank_indices engines.*1 = Return idx ∧
    gather idx (Poll (Done ((λ e, mesh (sample e.1) size e.2) <$> engines)) pulled)
      = Done a ∧
    Z.of_nat (nrows a) = 2 * size + 1 ∧
    Forall (λ e, nyt size e.2 ≠ Z.of_nat (nrows a)) engines.
Proof.
  intros size engines Hsize Hodd.
  destruct (odd_size_steps size Hsize Hodd) as (Hnx & Hny1 & Hny2).
  set (slab := λ e : Z * Z, mesh (sample e.1) size e.2).
  assert (length engines = n) as Hlen.
  { unfold engines. simpl. rewrite length_fmap, length_seqZ. lia. }
  assert (engines.*1 = seqZ 0 (Z.of_nat n)) as Hranks.
  { unfold engines. rewrite (seqZ_cons 0) by lia. simpl. f_equal.
    rewrite <-list_fmap_compose. replace (Z.pred (Z.of_nat n)) with (size - 1) by lia.
    etrans; [|apply list_fmap_id]. by apply list_fmap_ext. }
  assert (Forall (λ b, ncols b = Z.to_nat (nx (2 * size))) (slab <$> engines))
    as Hcols.
  { unfold engines. rewrite fmap_cons. constructor; [done|].
    rewrite <-list_fmap_compose. apply Forall_fmap, Forall_forall.
    intros rk _. simpl. by rewrite Hnx. }
  assert (length (concat (rows <$> (slab <$> engines))) = (2 * n + 1)%nat)
    as Hrows.
  { unfold engines. rewrite !fmap_cons. simpl. rewrite length_app.
    rewrite length_fmap, length_seq, <-!list_fmap_compose.
    rewrite (length_concat_const _ _ 2).
    - rewrite length_seqZ. unfold size in *. lia.
    - apply Forall_forall. intros rk _. simpl.
      rewrite length_fmap, length_seq. unfold size in *. lia. }
  exists (seqZ 0 (Z.of_nat n)),
    (Ndarray (Z.to_nat (nx (2 * size))) (concat (rows <$> (slab <$> engines)))).
  split; [|split; [|split]].
  - rewrite Hranks. unfold rank_indices. by rewrite argsort_seqZ.
  - erewrite gather_concatenate; [|done|].
    + apply concatenate_Done; [done|exact Hcols].
    + rewrite <-Hlen, <-(length_fmap slab). apply comprehension_seqZ.
  - unfold nrows. cbn [rows]. rewrite Hrows. unfold size. lia.
  - unfold nrows. cbn [rows]. rewrite Hrows. unfold engines.
    constructor; [simpl; unfold nyt; rewrite Hny2; unfold size in *; lia|].
    apply Forall_fmap, Forall_forall. intros rk _. simpl.
    unfold nyt. rewrite Hny1. unfold size in *. lia.
Qed.
End torn_polls.

(** * Instances of the further properties *)

(** Ranks that are not numbered from 0 still put the values in rank
    order. *)
Lemma reassemble_sorts_by_rank_witness :
  NoDup [10; 30; 0; 20] ∧ Forall int64 [10; 30; 0; 20] ∧
  length ["w0"; "w1"; "w2"; "w3"]%string = length [10; 30; 0; 20] ∧
  ∃ ks result,
    reassemble [10; 30; 0; 20] [10; 30; 0; 20] = Return ks ∧
    reassemble [10; 30; 0; 20] ["w0"; "w1"; "w2"; "w3"]%string = Return result ∧
    Sorted Z.le ks ∧
    zip ks result ≡ₚ zip [10; 30; 0; 20] ["w0"; "w1"; "w2"; "w3"]%string.
Proof.
  assert (NoDup [10; 30; 0; 20]) as Hnd by compute_done.
  assert (Forall int64 [10; 30; 0; 20]) as Hint by compute_done.
  split; [exact Hnd|]. split; [exact Hint|]. split; [reflexivity|].
  exact (reassemble_sorts_by_rank [10; 30; 0; 20]
           ["w0"; "w1"; "w2"; "w3"]%string Hnd Hint eq_refl).
Defined.

Lemma rank_indices_unique_witness :
  NoDup [1; 3; 0; 2] ∧ Forall int64 [1; 3; 0; 2] ∧
  rank_indices [1; 3; 0; 2] = Return [2; 0; 3; 1].
Proof.
  assert (NoDup [1; 3; 0; 2]) as Hnd by compute_done.
  assert (Forall int64 [1; 3; 0; 2]) as Hint by compute_done.
  split; [exact Hnd|]. split; [exact Hint|].
  apply (rank_indices_unique [1; 3; 0; 2] [2; 0; 3; 1] [0; 1; 2; 3] Hnd Hint).
  - compute_done.
  - reflexivity.
  - compute_done.
Defined.

Lemma mpi_order_compose_witness :
  ∃ r, mpi_order [1; 1; 0] ["c"; "a"; "b"]%string = Return r ∧
       mpi_order [0; 0; 2] ["a"; "b"; "c"]%string = Return r.
Proof.
  exact (mpi_order_compose ["a"; "b"; "c"]%string ["c"; "a"; "b"]%string
           [1; 1; 0] [2; 0; 1] [0; 0; 2] eq_refl eq_refl).
Defined.

Lemma mesh_refines_witness :
  nx 3 ≤ nx 4 ∧ ny 4 3 ≤ ny 4 4 ∧ nyt 4 3 ≤ nyt 4 4 ∧
  nx (3 + 4) = nx 3 + 1 ∧ ny 4 (3 + 2 * 4) = ny 4 3 + 1.
Proof. apply (mesh_refines 4 3 4); lia. Defined.

Lemma even_size_same_width_same_height_witness :
  nx 4 = nx 7 ∧ ny 4 4 = ny 4 7 ∧ nyt 4 4 = nyt 4 7.
Proof.
  split; [reflexivity|].
  apply (even_size_same_width_same_height 4 4 7); [lia|by exists 2|reflexivity].
Defined.

Lemma odd_size_same_width_other_height_witness :
  nx (2 * 3 - 1) = nx (2 * 3) ∧ ny 3 (2 * 3 - 1) ≠ ny 3 (2 * 3).
Proof.
  apply (odd_size_same_width_other_height 3); [lia|by exists 1].
Defined.

Lemma published_consistent_witness :
  rectangular (g_Z (published (λ _ _ _, ()) 4 5)) ∧
  Z.of_nat (ncols (g_Z (published (λ _ _ _, ()) 4 5))) = 3.
Proof.
  destruct (published_consistent (λ _ _ _, ()) 4 5) as (Hrect & Hnx & _);
    [lia..|].
  split; [exact Hrect|exact Hnx].
Defined.

(** [stop] is found set at the test of step 7. *)
Lemma simulation_final_witness :
  0 < 100 ∧
  ∃ k, simulation (λ _ _ _, ()) 4 100 (λ j, bool_decide (7 ≤ j)) None
         = Some (published (λ _ _ _, ()) 4 k) ∧
       ((λ j, bool_decide (7 ≤ j)) k = true ∨ k = 100 - 1).
Proof.
  assert (0 < 100) as H by lia. split; [exact H|].
  destruct (simulation_final (λ _ _ _, ()) 4 100 (λ j, bool_decide (7 ≤ j)) None H)
    as (k & _ & Hrun & _ & Hlast).
  exists k. split; [exact Hrun|exact Hlast].
Defined.

Lemma simulation_unbound_witness :
  0 ≤ 0 ∧ simulation (λ _ _ _, ()) 4 0 (λ _, false) None = None.
Proof.
  assert (0 ≤ 0) as H by lia. split; [exact H|].
  exact (proj2 (simulation_unbound (λ _ _ _, ()) 4 0 (λ _, false)) H).
Defined.

Lemma gather_keeps_rows_witness :
  ∃ a, gather [1; 0]
         (Poll (Done [Ndarray 2 [[1; 2]]; Ndarray 2 [[3; 4]; [5; 6]]])
               (Done (2, 3, 0, 50))) = Done a ∧
       rows a ≡ₚ [[1; 2]; [3; 4]; [5; 6]].
Proof.
  destruct (gather_keeps_rows [1; 0]
              (Poll (Done [Ndarray 2 [[1; 2]]; Ndarray 2 [[3; 4]; [5; 6]]])
                    (Done (2, 3, 0, 50)))
              [Ndarray 2 [[1; 2]]; Ndarray 2 [[3; 4]; [5; 6]]] eq_refl)
    as [Hrows _]; [compute_done|].
  eexists. split; [reflexivity|].
  exact (proj1 (Hrows _ eq_refl)).
Defined.

(** No engine at all: the message is that of a dimension mismatch. *)
Lemma plot_dimension_mismatch_witness :
  plot_current_results (A := Z) (R := Z) [] true
      (Poll (Done []) (Done (2, 2, 0, 50)))
    = ([Print "dimension mismatch in Z, not plotting"], Done CurrentFigure).
Proof.
  apply (proj2 (plot_dimension_mismatch (A := Z) (R := Z) [] true
                  (Poll (Done []) (Done (2, 2, 0, 50))) [] [] eq_refl eq_refl)).
  by left.
Defined.

(** One array comes back for an index built for two engines. *)
Lemma plot_index_error_witness :
  plot_current_results (R := Z) [1; 0] true
      (Poll (Done [Ndarray 2 [[1; 2]]]) (Done (2, 2, 0, 50)))
    = ([], Raised (Subscript IndexError)).
Proof.
  apply (plot_index_error (R := Z) [1; 0] true
           (Poll (Done [Ndarray 2 [[1; 2]]]) (Done (2, 2, 0, 50)))
           [Ndarray 2 [[1; 2]]] 2 eq_refl).
  - compute_done.
  - simpl. lia.
Defined.

Lemma plot_same_step_witness :
  rank_permutation [1; 0] ∧
  ∃ stacked fig,
    plot_current_results (R := Z) [1; 0] true
        (Poll (Done ((λ rk, mesh (λ _ _ _, rk) 2 0) <$> [1; 0]))
              (Done (nx 0, nyt 2 0, 0, 50)))
      = ([ClearOutput; Display fig], Done fig) ∧
    fig = Contour stacked "Mesh: 2 x 4, step 1/50" ∧
    rows stacked = [[0; 0]; [0; 0]; [1; 1]; [1; 1]].
Proof.
  assert (rank_permutation [1; 0]) as H by compute_done.
  split; [exact H|].
  destruct (plot_same_step (R := Z) (λ rk _ _ _, rk) [1; 0] [1; 0] 2 0 50 true
              H eq_refl eq_refl) as (Hplot & _); [lia..|].
  eexists _, _. split; [exact Hplot|]. split; reflexivity.
Defined.

Lemma monitor_goes_on_witness :
  simulation_alive (Done [false; true]) = Done true ∧
  monitor_simulation (A := Z) [0] 1 true (Done [false; true])
    (Poll (Done []) (Done (2, 2, 0, 50))) [] = None.
Proof.
  split; [reflexivity|].
  apply (proj2 (monitor_goes_on (A := Z) [0] 1 true (Done [false; true])
                  (Poll (Done []) (Done (2, 2, 0, 50))) [] eq_refl)).
  constructor.
Defined.

(** A thread is alive at the first check and none at the loop's test:
    "Simulation completed!" with no figure shown. *)
Lemma monitor_completed_witness :
  monitor_simulation (A := Z) [0] 1 true (Done [true])
      (Poll (Done []) (Done (2, 2, 0, 50)))
      [Turn (Done [false]) (Poll (Done []) (Done (2, 2, 0, 50))) (Done ())]
    = Some ([Print "Simulation completed!"; PrintElapsed], Done ()).
Proof.
  apply (proj2 (monitor_completed (A := Z) [0] 1 true (Done [true])
                  (Poll (Done []) (Done (2, 2, 0, 50))) []
                  (Turn (Done [false]) (Poll (Done []) (Done (2, 2, 0, 50)))
                     (Done ()))
                  [] eq_refl (Forall_nil_2 _) eq_refl)).
  reflexivity.
Defined.

(** One array for an index built for two engines, in the loop:
    [IndexError] leaves [monitor_simulation]. *)
Lemma monitor_raise_in_call_witness :
  monitor_simulation (A := Z) [1; 0] 1 true (Done [true])
      (Poll (Done []) (Done (2, 2, 0, 50)))
      [Turn (Done [true])
         (Poll (Done [Ndarray 2 [[1; 2]]]) (Done (2, 2, 0, 50))) (Done ())]
    = Some ([], Raised (Subscript IndexError)).
Proof.
  apply (monitor_raise_in_call (A := Z) [1; 0] 1 true (Done [true])
           (Poll (Done []) (Done (2, 2, 0, 50))) []
           (Turn (Done [true])
              (Poll (Done [Ndarray 2 [[1; 2]]]) (Done (2, 2, 0, 50))) (Done ()))
           [] (Subscript IndexError) eq_refl (Forall_nil_2 _)).
  right. split; reflexivity.
Defined.

Lemma monitor_interrupted_sleep_witness :
  ∃ f,
    monitor_simulation (A := Z) [0] 1 true (Done [true])
        (Poll (Done []) (Done (2, 2, 0, 50)))
        [Turn (Done [true])
           (Poll (Done [Ndarray 2 [[1; 2]; [3; 4]]]) (Done (2, 2, 0, 50)))
           (Raised KeyboardInterrupt)]
      = Some ([ClearOutput; Display f; CloseAll; Sleep 1;
               ClearOutput; CloseAll; Display f;
               Print "Monitoring interrupted, simulation is ongoing!";
               PrintElapsed], Done ()).
Proof.
  eexists.
  exact (monitor_interrupted_sleep (A := Z) [0] 1 true (Done [true])
           (Poll (Done []) (Done (2, 2, 0, 50))) []
           (Turn (Done [true])
              (Poll (Done [Ndarray 2 [[1; 2]; [3; 4]]]) (Done (2, 2, 0, 50)))
              (Raised KeyboardInterrupt))
           [] _ _ eq_refl (Forall_nil_2 _) eq_refl eq_refl eq_refl).
Defined.

Lemma monitor_timeout_escapes_witness :
  monitor_simulation (A := Z) (R := Z) [0] 1 true (Raised TimeoutError)
      (Poll (Done []) (Done (2, 2, 0, 50))) []
    = Some ([], Raised TimeoutError) ∧
  (simulation_alive (Raised TimeoutError) = Raised TimeoutError ∨
   (simulation_alive (Raised TimeoutError) = Done false ∧
    plot_current_results (A := Z) (R := Z) [0] true
        (Poll (Done []) (Done (2, 2, 0, 50)))
      = ([], Raised TimeoutError))).
Proof.
  split; [reflexivity|].
  exact (monitor_timeout_escapes (A := Z) (R := Z) [0] 1 true
           (Raised TimeoutError) (Poll (Done []) (Done (2, 2, 0, 50)))
           [] [] eq_refl).
Defined.

Lemma monitor_already_finished_witness :
  simulation_alive (Done [false; false]) = Done false ∧
  ∃ evs o,
    plot_current_results (A := Z) (R := Z) [0] true
        (Poll (Done [Ndarray 2 [[1; 2]; [3; 4]]]) (Done (2, 2, 0, 50)))
      = (evs, o) ∧
    monitor_simulation [0] 1 true (Done [false; false])
        (Poll (Done [Ndarray 2 [[1; 2]; [3; 4]]]) (Done (2, 2, 0, 50))) []
      = match o with
        | Done _ =>
            Some (evs ++ [CloseAll;
                          Print "Simulation has already finished, no monitoring to do."],
                  Done ())
        | Raised e => Some (evs, Raised e)
        end.
Proof.
  split; [reflexivity|].
  destruct (monitor_already_finished (A := Z) (R := Z) [0] 1 true
              (Done [false; false])
              (Poll (Done [Ndarray 2 [[1; 2]; [3; 4]]]) (Done (2, 2, 0, 50)))
              eq_refl) as (evs & o & Hp & Hm).
  exists evs, o. split; [exact Hp|exact (Hm [])].
Defined.

(** Two engines caught at steps 7 and 4: same width, same height. *)
Lemma even_size_gather_consistent_witness :
  ∃ a, gather [1; 0]
         (Poll (Done ((λ e, mesh (λ _ _ _, ()) 2 e.2) <$> [(1, 7); (0, 4)]))
               (Done (3, 6, 7, 50))) = Done a ∧
       Forall (λ e : Z * Z, nx e.2 = Z.of_nat (ncols a) ∧
                            nyt 2 e.2 = Z.of_nat (nrows a))
              [(1, 7); (0, 4)].
Proof.
  eexists. split; [reflexivity|].
  apply (even_size_gather_consistent (λ _ _ _ _, ()) [(1, 7); (0, 4)] [1; 0] 2
           (Done (3, 6, 7, 50))).
  - reflexivity.
  - by exists 1.
  - compute_done.
  - compute_done.
  - reflexivity.
Defined.

Lemma odd_size_torn_poll_witness :
  3 ≤ Z.of_nat 3 ∧ Z.Odd (Z.of_nat 3) ∧
  ∃ idx a,
    rank_indices [0; 1; 2] = Return idx ∧
    gather idx
      (Poll (Done ((λ e, mesh (λ _ _ _, ()) 3 e.2) <$> [(0, 6); (1, 5); (2, 5)]))
            (Done (3, 6, 5, 50))) = Done a ∧
    Z.of_nat (nrows a) = 7.
Proof.
  assert (3 ≤ Z.of_nat 3) as H3 by (simpl; lia).
  assert (Z.Odd (Z.of_nat 3)) as Hodd by (by exists 1).
  split; [exact H3|]. split; [exact Hodd|].
  destruct (odd_size_torn_poll (λ _ _ _ _, ()) 3 (Done (3, 6, 5, 50)) H3 Hodd)
    as (idx & a & Hidx & Hgather & Hrows & _).
  exists idx, a. split; [exact Hidx|]. split; [exact Hgather|exact Hrows].
Defined.
